(** * spherical_sld: the scattering kernel of a multi-shell sphere with graded
    interfaces (sasmodels/models/spherical_sld.c)

    The kernel is C code over IEEE-754 binary64 numbers and 32-bit [int]s.
    The embedding keeps both: a [double] is a primitive [float] of Rocq (the
    same binary64 arithmetic, round to nearest even, with its infinities, its
    signed zeros and its not-a-number), an [int] is a [Z] with the wrap-around
    of 32 bits written out, an array is a [list] read by index, and a [for]
    loop is a recursion on fuel that tests the loop condition before every
    iteration.  The math library of the kernel (the Bessel term, the error
    function, [pow], [expm1], sine and cosine) is a parameter: the theorems
    hold for every library, under the facts about it that they state. *)

From Stdlib Require Import ZArith List Bool Lia Floats.
From Stdlib Require Uint63.
Import ListNotations.

Local Open Scope Z_scope.

(* Decimal literals of the C source stand for the nearest binary64 value. *)
Set Warnings "-inexact-float".

(* ================================================================== *)
(** * Outcomes *)

(** What a call of a kernel function comes to. *)
Inductive outcome (A : Type) : Type :=
| Ret (a : A)   (** the call returns [a] *)
| Fault         (** an array was read outside its bounds *)
| Starved.      (** a loop wanted more iterations than the fuel allows *)

Arguments Ret {A} a.
Arguments Fault {A}.
Arguments Starved {A}.

Definition bind {A B : Type} (m : outcome A) (k : A -> outcome B) : outcome B :=
  match m with
  | Ret a => k a
  | Fault => Fault
  | Starved => Starved
  end.

Notation "x <- m ;; k" := (bind m (fun x => k))
  (at level 61, m at next level, right associativity).

(* ================================================================== *)
(** * The C types *)

(** ** [int]: 32 bits, two's complement *)

Definition INT_MIN : Z := -2147483648.
Definition INT_MAX : Z := 2147483647.

Definition in_int (z : Z) : Prop := INT_MIN <= z <= INT_MAX.

(** The value an [int] register holds after an arithmetic result [z].  The
    C standard leaves a signed overflow undefined; the compiled kernel wraps
    around, and so does the embedding. *)
Definition wrap_int (z : Z) : Z := (z + 2147483648) mod 4294967296 - 2147483648.

Definition int_add (a b : Z) : Z := wrap_int (a + b).
Definition int_sub (a b : Z) : Z := wrap_int (a - b).

(** [i++] *)
Definition int_succ (i : Z) : Z := int_add i 1.

(** ** [double]: binary64 *)

(** [(double)i] for an [int] [i]; every [int] is represented exactly. *)
Definition double_of_int (i : Z) : float :=
  if i <? 0 then (- of_uint63 (Uint63.of_Z (- i)))%float
  else of_uint63 (Uint63.of_Z i).

(** The integer part of a finite double (rounding towards zero); [None] for
    an infinity and for not-a-number. *)
Definition trunc_double (x : float) : option Z :=
  match Prim2SF x with
  | S754_zero _ => Some 0
  | S754_finite s m e =>
      let mag := Z.shiftl (Zpos m) e in
      Some (if s then - mag else mag)
  | S754_infinity _ | S754_nan => None
  end.

(** C99 [fabs] and [fmax]: [fmax] returns the other argument when one is
    not-a-number. *)
Definition fabs (x : float) : float := abs x.

Definition fmax (x y : float) : float :=
  if is_nan x then y
  else if is_nan y then x
  else if (x <? y)%float then y else x.

(** ** Arrays *)

(** [a[i]]: a read outside the array is a fault. *)
Definition read (a : list float) (i : Z) : outcome float :=
  if i <? 0 then Fault
  else match nth_error a (Z.to_nat i) with
       | Some x => Ret x
       | None => Fault
       end.

(* ================================================================== *)
(** * What the kernel takes from its environment *)

(** The math library and the platform.  The spec treats the error function,
    the normalized spherical Bessel term, the combined sine and cosine and
    [expm1] as given; [pow] comes with them.  [int_of_invalid] is what the
    platform delivers for [(int)x] when the integer part of [x] does not fit
    an [int] (or [x] is an infinity or not-a-number). *)
Class KernelEnv : Type := {
  sas_erf : float -> float;
  pow : float -> float -> float;
  expm1 : float -> float;
  sph_j1c : float -> float;
  sin : float -> float;
  cos : float -> float;
  int_of_invalid : float -> Z
}.

(** Modelled from the spec: the kernel header's constant [M_4PI_3], whose
    definition is not in the source file; the spec gives it as (4/3)pi. *)
Definition M_4PI_3 : float := 4.18879020478639%float.

(** Modelled from the spec: the kernel header's [cube], whose definition is
    not in the source file; the spec gives it as the third power. *)
Definition cube (x : float) : float := (x * x * x)%float.

(** [(int)x] *)
Definition double_to_int `{E : KernelEnv} (x : float) : Z :=
  match trunc_double x with
  | Some z => if (INT_MIN <=? z) && (z <=? INT_MAX) then z else int_of_invalid x
  | None => int_of_invalid x
  end.

(* ================================================================== *)
(** * The kernel *)

Section Kernel.
Context `{E : KernelEnv}.

(** ** [form_volume] *)

Section FormVolume.
Variables (n_shells : Z) (thickness interface : list float).

(** [for (int i=0; i < n_shells; i++) r += thickness[i] + interface[i];] *)
Fixpoint form_volume_loop (fuel : nat) (i : Z) (r : float) : outcome float :=
  if i <? n_shells then
    match fuel with
    | O => Starved
    | S fuel' =>
        t <- read thickness i ;;
        w <- read interface i ;;
        form_volume_loop fuel' (int_succ i) (r + (t + w))%float
    end
  else Ret r.

Definition form_volume (fuel : nat) : outcome float :=
  r <- form_volume_loop fuel 0 0.0%float ;;
  Ret (M_4PI_3 * cube r)%float.

End FormVolume.

(** ** [blend] *)

Definition M_SQRT1_2 : float := 0.70710678118654752440%float.

Definition blend (shape : Z) (nu z : float) : float :=
  if shape =? 0 then
    let num := sas_erf (nu * M_SQRT1_2 * (2.0 * z - 1.0))%float in
    let denom := (2.0 * sas_erf (nu * M_SQRT1_2))%float in
    (num / denom + 0.5)%float
  else if shape =? 1 then
    pow z nu
  else if shape =? 2 then
    (1.0 - pow (1.0 - z) nu)%float
  else if shape =? 3 then
    (expm1 (- nu * z) / expm1 (- nu))%float
  else if shape =? 4 then
    (expm1 (nu * z) / expm1 nu)%float
  else
    nan.

(** ** [f_linear] *)

(** [SINCOS(qr, sinqr, cosqr)] sets the two variables to [sin qr] and
    [cos qr]; the local [fun] of the source is [fun_] here. *)
Definition f_linear (q r contrast slope : float) : float :=
  let qr := (q * r)%float in
  let qrsq := (qr * qr)%float in
  let bes := sph_j1c qr in
  let sinqr := sin qr in
  let cosqr := cos qr in
  let fun_ := (3.0 * r * (2.0 * qr * sinqr - (qrsq - 2.0) * cosqr) / (qrsq * qrsq))%float in
  let vol := (M_4PI_3 * cube r)%float in
  (vol * (bes * contrast + fun_ * slope))%float.

(** ** [Iq] *)

Section Iq.
Variables (q : float) (n_shells : Z) (sld_solvent : float)
          (sld thickness interface shape nu : list float) (n_steps : Z).

(** The loop over the sub-shells of one interface:
    [for (int step=1; step <= n_steps; step++) { ... }].
    It carries [sld_in], [f] and [r]. *)
Fixpoint step_loop (fuel : nat) (sld_l dr delta nu_shell : float) (shape_shell : Z)
         (step : Z) (sld_in f r : float) : outcome (float * float) :=
  if step <=? n_steps then
    match fuel with
    | O => Starved
    | S fuel' =>
        let z := (double_of_int step / double_of_int n_steps)%float in
        let fraction := blend shape_shell nu_shell z in
        let sld_out := (fraction * delta + sld_l)%float in
        let slope := ((sld_out - sld_in) / dr)%float in
        let contrast := (sld_in - slope * r)%float in
        let f := (f - f_linear q r contrast slope)%float in
        let r := (r + dr)%float in
        let f := (f + f_linear q r contrast slope)%float in
        step_loop fuel' sld_l dr delta nu_shell shape_shell (int_succ step) sld_out f r
    end
  else Ret (f, r).

(** The loop over the shells:
    [for (int shell=0; shell<n_shells; shell++) { ... }].
    [gas] is the fuel every interface loop starts with. *)
Fixpoint shell_loop (gas fuel : nat) (shell : Z) (f r : float) : outcome (float * float) :=
  if shell <? n_shells then
    match fuel with
    | O => Starved
    | S fuel' =>
        sld_l <- read sld shell ;;
        let f := (f - M_4PI_3 * cube r * sld_l * sph_j1c (q * r))%float in
        t <- read thickness shell ;;
        let r := (r + t)%float in
        let f := (f + M_4PI_3 * cube r * sld_l * sph_j1c (q * r))%float in
        w <- read interface shell ;;
        let dr := (w / double_of_int n_steps)%float in
        sld_next <- (if shell =? int_sub n_shells 1 then Ret sld_solvent
                     else read sld (int_add shell 1)) ;;
        let delta := (sld_next - sld_l)%float in
        nu_i <- read nu shell ;;
        let nu_shell := fmax (fabs nu_i) 1.0e-14%float in
        shape_i <- read shape shell ;;
        let shape_shell := double_to_int shape_i in
        if (dr =? 0.0)%float then
          shell_loop gas fuel' (int_succ shell) f r
        else
          fr <- step_loop gas sld_l dr delta nu_shell shape_shell 1 sld_l f r ;;
          shell_loop gas fuel' (int_succ shell) (fst fr) (snd fr)
    end
  else Ret (f, r).

(** The amplitude [f] as it stands before the last two lines of [Iq]. *)
Definition Iq_amplitude (fuel : nat) : outcome float :=
  fr <- shell_loop fuel fuel 0 0.0%float 0.0%float ;;
  let f := fst fr in
  let r := snd fr in
  Ret (f - M_4PI_3 * cube r * sld_solvent * sph_j1c (q * r))%float.

Definition Iq (fuel : nat) : outcome float :=
  f <- Iq_amplitude fuel ;;
  Ret (f * f * 1.0e-4)%float.

End Iq.
End Kernel.

(* ================================================================== *)
(** * Closed forms *)

(** The indices [lo], [lo+1], ..., [lo+k-1] a counting loop visits. *)
Fixpoint Zrange (lo : Z) (k : nat) : list Z :=
  match k with
  | O => []
  | S k' => lo :: Zrange (lo + 1) k'
  end.

(** [a[i]] when the index is known to be inside the array. *)
Definition elem (a : list float) (i : Z) : float := nth (Z.to_nat i) a 0.0%float.

(** The sum over the first [n_shells] shells of [thickness[i] + interface[i]],
    added up from the innermost shell outwards. *)
Definition total_radius (n_shells : Z) (thickness interface : list float) : float :=
  fold_left (fun r i => (r + (elem thickness i + elem interface i))%float)
            (Zrange 0 (Z.to_nat n_shells)) 0.0%float.

Section Telescoped.
Context `{E : KernelEnv}.

(** Whether an interface of width [w], cut into steps of width [dr], is
    sub-stepped at all. *)
Variable graded : float -> float -> bool.

Variables (q : float) (n_shells : Z) (sld_solvent : float)
          (sld thickness interface shape nu : list float) (n_steps : Z).

(** The uniform term (4/3) pi r^3 * sld * sph_j1c(q r). *)
Definition uniform_term (r sld_l : float) : float :=
  (M_4PI_3 * cube r * sld_l * sph_j1c (q * r))%float.

(** One sub-step of an interface, on the triple ([sld_in], [f], [r]). *)
Definition sub_step (sld_l dr delta nu_shell : float) (shape_shell : Z)
    (st : float * float * float) (step : Z) : float * float * float :=
  let sld_in := fst (fst st) in
  let f := snd (fst st) in
  let r := snd st in
  let z := (double_of_int step / double_of_int n_steps)%float in
  let sld_out := (blend shape_shell nu_shell z * delta + sld_l)%float in
  let slope := ((sld_out - sld_in) / dr)%float in
  let contrast := (sld_in - slope * r)%float in
  let f := (f - f_linear q r contrast slope)%float in
  let r := (r + dr)%float in
  let f := (f + f_linear q r contrast slope)%float in
  (sld_out, f, r).

(** The sub-steps 1..[n_steps] of one interface, from the pair ([f], [r]). *)
Definition interface_sum (sld_l dr delta nu_shell : float) (shape_shell : Z)
    (f r : float) : float * float :=
  let st := fold_left (sub_step sld_l dr delta nu_shell shape_shell)
                      (Zrange 1 (Z.to_nat n_steps)) (sld_l, f, r) in
  (snd (fst st), snd st).

(** The quantities [Iq] derives for one shell: the width [dr] of a sub-step,
    the contrast change [delta] across the interface, the clamped sharpness
    [nu_shell] and the truncated shape code [shape_shell]. *)
Definition step_width (shell : Z) : float :=
  (elem interface shell / double_of_int n_steps)%float.

Definition contrast_change (shell : Z) : float :=
  ((if (shell =? n_shells - 1)%Z then sld_solvent else elem sld (shell + 1)%Z)
   - elem sld shell)%float.

Definition effective_nu (shell : Z) : float :=
  fmax (fabs (elem nu shell)) 1.0e-14%float.

Definition shape_code (shell : Z) : Z := double_to_int (elem shape shell).

(** One shell, on the pair ([f], [r]). *)
Definition shell_step (st : float * float) (shell : Z) : float * float :=
  let sld_l := elem sld shell in
  let f := (fst st - uniform_term (snd st) sld_l)%float in
  let r := (snd st + elem thickness shell)%float in
  let f := (f + uniform_term r sld_l)%float in
  if graded (elem interface shell) (step_width shell)
  then interface_sum sld_l (step_width shell) (contrast_change shell)
                     (effective_nu shell) (shape_code shell) f r
  else (f, r).

(** The telescoped sum over all shells, closed by the solvent term. *)
Definition telescoped_amplitude : float :=
  let st := fold_left shell_step (Zrange 0 (Z.to_nat n_shells)) (0.0, 0.0)%float in
  (fst st - uniform_term (snd st) sld_solvent)%float.

End Telescoped.

(** The source sub-steps an interface unless its step width compares equal
    to zero ([if (dr == 0.) continue;]). *)
Definition graded_by_step (w dr : float) : bool := negb (dr =? 0.0)%float.

(** The spec sub-steps an interface when its width is nonzero. *)
Definition graded_by_width (w dr : float) : bool := negb (w =? 0.0)%float.

(** The amplitude and the intensity the spec describes. *)
Definition spec_amplitude `{E : KernelEnv} := telescoped_amplitude graded_by_width.

Definition spec_intensity `{E : KernelEnv} (q : float) (n_shells : Z) (sld_solvent : float)
    (sld thickness interface shape nu : list float) (n_steps : Z) : float :=
  let a := spec_amplitude q n_shells sld_solvent sld thickness interface shape nu n_steps in
  (a * a * 1.0e-4)%float.

(* ================================================================== *)
(** * Names for parts of [f_linear] and for facts of the C library *)

(** The factor of [slope] in [f_linear], the local [fun] of the source. *)
Definition slope_factor `{E : KernelEnv} (q r : float) : float :=
  let qr := (q * r)%float in
  let qrsq := (qr * qr)%float in
  (3.0 * r * (2.0 * qr * sin qr - (qrsq - 2.0) * cos qr) / (qrsq * qrsq))%float.

(** What C99 (Annex F) fixes for [pow] and [expm1] at the arguments the
    boundary values of [blend] need: pow(+0, y) = +0 for y > 0,
    pow(1, y) = 1, expm1(+-0) = +-0. *)
Definition c99_boundary_values `{E : KernelEnv} : Prop :=
  (forall y, (0.0 <? y)%float = true -> pow 0.0 y = 0.0%float)
  /\ (forall y, pow 1.0 y = 1.0%float)
  /\ expm1 0.0 = 0.0%float
  /\ expm1 (-0.0) = (-0.0)%float.

(* ================================================================== *)
(** * Relations between inputs *)

(** [nu'] is [nu] with the sign of some entries changed. *)
Definition sign_flipped (nu nu' : list float) : Prop :=
  Forall2 (fun a b => b = a \/ b = (- a)%float) nu nu'.

(** [shape'] holds as many entries as [shape] and the same entry for every
    shell whose interface width does not compare equal to zero. *)
Definition same_graded_shapes (interface shape shape' : list float) : Prop :=
  length shape = length shape' /\
  forall (i : nat) (w : float),
    nth_error interface i = Some w -> (w =? 0.0)%float = false ->
    nth_error shape i = nth_error shape' i.

(* ================================================================== *)
(** * An executable environment *)

(** Truncated series in place of the math library, exact at the arguments
    where the C library is exact ([pow] at bases 0 and 1, [expm1] at the
    zeros, the Bessel term at 0).  It serves to run the kernel on concrete
    inputs. *)
Definition series_env : KernelEnv := {|
  sas_erf := fun x => (1.1283791670955126 * x * (1.0 - x * x / 3.0))%float;
  pow := fun x y =>
    if (x =? 1.0)%float then 1.0%float
    else if (x =? 0.0)%float then
      (if (0.0 <? y)%float then 0.0 else if (y <? 0.0)%float then infinity else 1.0)%float
    else if (y =? 1.0)%float then x
    else if (y =? 2.0)%float then (x * x)%float
    else nan;
  expm1 := fun x => (x * (1.0 + x / 2.0 * (1.0 + x / 3.0 * (1.0 + x / 4.0))))%float;
  sph_j1c := fun x =>
    let x2 := (x * x)%float in
    (1.0 + x2 * (-3.0 / 30.0 + x2 * (3.0 / 840.0 + x2 * (-3.0 / 45360.0))))%float;
  sin := fun x =>
    let x2 := (x * x)%float in
    (x * (1.0 - x2 / 6.0 * (1.0 - x2 / 20.0 * (1.0 - x2 / 42.0))))%float;
  cos := fun x =>
    let x2 := (x * x)%float in
    (1.0 - x2 / 2.0 * (1.0 - x2 / 12.0 * (1.0 - x2 / 30.0)))%float;
  int_of_invalid := fun _ => INT_MIN
|}.

(* ================================================================== *)
(** * Relations between two runs *)

(** Two doubles that are each other's negation, or two zeros of any signs,
    on the level of their binary representations and of the doubles. *)
Definition mirrored_sf (x y : spec_float) : Prop :=
  y = SFopp x \/ (exists s s', x = S754_zero s /\ y = S754_zero s').

Definition mirrored (x y : float) : Prop := mirrored_sf (Prim2SF x) (Prim2SF y).

(** Two outcomes of a loop that end the same way, at the same radius and
    with mirrored accumulators. *)
Definition mirrored_run (a b : outcome (float * float)) : Prop :=
  match a, b with
  | Ret fr, Ret fr' => mirrored (fst fr) (fst fr') /\ snd fr' = snd fr
  | Fault, Fault | Starved, Starved => True
  | _, _ => False
  end.

(** Two arrays that hold the same first [n] entries. *)
Definition same_prefix (n : Z) (a b : list float) : Prop :=
  forall i : nat, (i < Z.to_nat n)%nat -> nth_error a i = nth_error b i.

(** An outcome that is not a returned value: a fault or starvation. *)
Definition no_value {A : Type} (o : outcome A) : Prop := forall v : A, o <> Ret v.

(* ================================================================== *)
(** * The C types at work *)

(** Goals about the range of an [int] and the length of a literal array. *)
Ltac int_range := unfold in_int, INT_MIN, INT_MAX in *; cbn [length]; lia.

Example int_succ_wraps : int_succ INT_MAX = INT_MIN /\ int_succ 41 = 42.
Proof. split; reflexivity. Qed.

Example double_of_int_is_exact :
  double_of_int 3 = 3.0%float /\ double_of_int (-7) = (-7.0)%float
  /\ double_of_int INT_MAX = 2147483647.0%float.
Proof. repeat split; reflexivity. Qed.

Example double_to_int_truncates :
  double_to_int (E := series_env) 3.7 = 3
  /\ double_to_int (E := series_env) (-3.7) = -3
  /\ double_to_int (E := series_env) 4.999 = 4
  /\ double_to_int (E := series_env) (-0.5) = 0
  /\ double_to_int (E := series_env) 1.0e30 = INT_MIN
  /\ double_to_int (E := series_env) nan = INT_MIN.
Proof. repeat split; reflexivity. Qed.

Example fmax_skips_nan :
  fmax nan 1.0e-14 = 1.0e-14%float /\ fmax (fabs (-2.5)) 1.0e-14 = 2.5%float
  /\ fmax (fabs 0.0) 1.0e-14 = 1.0e-14%float.
Proof. repeat split; reflexivity. Qed.

(** The uniform sphere of radius 10 at q = 0.05, run with [series_env]. *)
Example Iq_uniform_sphere_series :
  Iq (E := series_env) 0.05 1 0.0 [1.0]%float [10.0]%float [0.0]%float [0.0]%float
     [2.5]%float 10 5 = Ret 1668.7234140488731%float.
Proof. reflexivity. Qed.

(* ================================================================== *)
(** * Integers and arrays *)

Lemma wrap_int_in_range (z : Z) : in_int z -> wrap_int z = z.
Proof.
  unfold in_int, wrap_int, INT_MIN, INT_MAX. intros Hz.
  rewrite Z.mod_small by lia. lia.
Qed.

Lemma wrap_int_is_int (z : Z) : in_int (wrap_int z).
Proof.
  unfold in_int, wrap_int, INT_MIN, INT_MAX.
  pose proof (Z.mod_pos_bound (z + 2147483648) 4294967296 eq_refl). lia.
Qed.

Lemma int_succ_in_range (i : Z) : INT_MIN <= i < INT_MAX -> int_succ i = i + 1.
Proof.
  intros Hi. unfold int_succ, int_add. apply wrap_int_in_range.
  unfold in_int, INT_MIN, INT_MAX in *. lia.
Qed.

Lemma int_succ_is_int (i : Z) : in_int (int_succ i).
Proof. apply wrap_int_is_int. Qed.

Lemma read_elem (a : list float) (i : Z) :
  0 <= i -> (Z.to_nat i < length a)%nat -> read a i = Ret (elem a i).
Proof.
  intros Hi Hlen. unfold read, elem.
  destruct (Z.ltb_spec i 0) as [Hneg | _]; [lia |].
  destruct (nth_error a (Z.to_nat i)) as [x |] eqn:Hnth.
  - now rewrite (nth_error_nth a (Z.to_nat i) 0.0%float Hnth).
  - apply nth_error_None in Hnth. lia.
Qed.

Lemma Zrange_bounds (k : nat) :
  forall lo i, In i (Zrange lo k) -> lo <= i < lo + Z.of_nat k.
Proof.
  induction k as [| k IH]; intros lo i Hin; simpl in Hin; [contradiction |].
  destruct Hin as [<- | Hin]; [lia |].
  apply IH in Hin. lia.
Qed.

Lemma fold_left_agree {A B : Type} (g h : A -> B -> A) (l : list B) :
  (forall a b, In b l -> g a b = h a b) ->
  forall a, fold_left g l a = fold_left h l a.
Proof.
  induction l as [| b l IH]; intros Hgh a; simpl; [reflexivity |].
  rewrite Hgh by (now left). apply IH. intros a' b' Hb'. apply Hgh. now right.
Qed.

Lemma Zrange_In (k : nat) :
  forall lo i, lo <= i < lo + Z.of_nat k -> In i (Zrange lo k).
Proof.
  induction k as [| k IH]; intros lo i Hi; simpl; [lia |].
  destruct (Z.eq_dec lo i) as [-> | Hne]; [now left |].
  right. apply IH. lia.
Qed.

(* ================================================================== *)
(** * Doubles: not-a-number *)

(** Not-a-number is absorbing for the four operations. *)
Lemma add_nan_l (x : float) : (nan + x)%float = nan.
Proof. apply Prim2SF_inj. rewrite FloatAxioms.add_spec. reflexivity. Qed.

Lemma add_nan_r (x : float) : (x + nan)%float = nan.
Proof.
  apply Prim2SF_inj. rewrite FloatAxioms.add_spec.
  change (Prim2SF nan) with S754_nan. now destruct (Prim2SF x).
Qed.

Lemma sub_nan_l (x : float) : (nan - x)%float = nan.
Proof. apply Prim2SF_inj. rewrite FloatAxioms.sub_spec. reflexivity. Qed.

Lemma sub_nan_r (x : float) : (x - nan)%float = nan.
Proof.
  apply Prim2SF_inj. rewrite FloatAxioms.sub_spec.
  change (Prim2SF nan) with S754_nan. now destruct (Prim2SF x).
Qed.

Lemma mul_nan_l (x : float) : (nan * x)%float = nan.
Proof. apply Prim2SF_inj. rewrite FloatAxioms.mul_spec. reflexivity. Qed.

Lemma mul_nan_r (x : float) : (x * nan)%float = nan.
Proof.
  apply Prim2SF_inj. rewrite FloatAxioms.mul_spec.
  change (Prim2SF nan) with S754_nan. now destruct (Prim2SF x).
Qed.

Lemma div_nan_l (x : float) : (nan / x)%float = nan.
Proof. apply Prim2SF_inj. rewrite FloatAxioms.div_spec. reflexivity. Qed.

Lemma div_nan_r (x : float) : (x / nan)%float = nan.
Proof.
  apply Prim2SF_inj. rewrite FloatAxioms.div_spec.
  change (Prim2SF nan) with S754_nan. now destruct (Prim2SF x).
Qed.

Create Rewrite HintDb nan_arith.

#[local] Hint Rewrite add_nan_l add_nan_r sub_nan_l sub_nan_r
  mul_nan_l mul_nan_r div_nan_l div_nan_r : nan_arith.

(* ================================================================== *)
(** * Doubles: classes *)

(** The four classes of a double. *)
Lemma is_nan_spec (x : float) : is_nan x = true <-> Prim2SF x = S754_nan.
Proof.
  unfold is_nan. rewrite FloatAxioms.eqb_spec.
  destruct (Prim2SF x) as [s | s | | s m e]; cbn.
  - split; [discriminate | discriminate].
  - destruct s; split; discriminate.
  - split; reflexivity.
  - unfold SFeqb, SFcompare. rewrite Z.compare_refl, Pos.compare_cont_refl.
    destruct s; split; discriminate.
Qed.

Lemma is_zero_spec (x : float) : is_zero x = true <-> exists s, Prim2SF x = S754_zero s.
Proof.
  unfold is_zero. rewrite FloatAxioms.eqb_spec. change (Prim2SF zero) with (S754_zero false).
  destruct (Prim2SF x) as [s | s | | s m e]; cbn.
  - split; [eauto | reflexivity].
  - destruct s; (split; [discriminate | intros [? ?]; discriminate]).
  - split; [discriminate | intros [? ?]; discriminate].
  - destruct s; (split; [discriminate | intros [? ?]; discriminate]).
Qed.

Lemma is_finite_spec (x : float) :
  is_finite x = true <->
  (exists s, Prim2SF x = S754_zero s) \/ (exists s m e, Prim2SF x = S754_finite s m e).
Proof.
  unfold is_finite, is_nan, is_infinity.
  rewrite !FloatAxioms.eqb_spec, FloatAxioms.abs_spec.
  change (Prim2SF infinity) with (S754_infinity false).
  destruct (Prim2SF x) as [s | s | | s m e]; cbn.
  - split; [eauto | reflexivity].
  - destruct s; (split; [discriminate | intros [[? ?] | (? & ? & ? & ?)]; discriminate]).
  - split; [discriminate | intros [[? ?] | (? & ? & ? & ?)]; discriminate].
  - unfold SFeqb, SFcompare. rewrite Z.compare_refl, Pos.compare_cont_refl.
    destruct s; (split; [eauto 6 | reflexivity]).
Qed.

(* ================================================================== *)
(** * Doubles: the conversion of an [int] *)

Lemma digits2_pos_shift (p k : positive) :
  Zpos (digits2_pos (Pos.iter xO p k)) = Zpos (digits2_pos p) + Zpos k.
Proof.
  apply (Pos.iter_ind _ xO p
           (fun k q => Zpos (digits2_pos q) = Zpos (digits2_pos p) + Zpos k)).
  - simpl. lia.
  - intros k' q IH. simpl digits2_pos. lia.
Qed.

Lemma digits2_pos_lower (p : positive) : 2 ^ (Zpos (digits2_pos p) - 1) <= Zpos p.
Proof.
  induction p as [p IH | p IH |]; simpl digits2_pos.
  - rewrite Pos2Z.inj_succ.
    replace (Z.succ (Zpos (digits2_pos p)) - 1) with (Z.succ (Zpos (digits2_pos p) - 1)) by lia.
    rewrite Z.pow_succ_r by lia. lia.
  - rewrite Pos2Z.inj_succ.
    replace (Z.succ (Zpos (digits2_pos p)) - 1) with (Z.succ (Zpos (digits2_pos p) - 1)) by lia.
    rewrite Z.pow_succ_r by lia. lia.
  - simpl. lia.
Qed.

Lemma binary_round_small (s : bool) (p : positive) :
  Zpos (digits2_pos p) < 53 ->
  binary_round prec emax s p 0 =
  S754_finite s (Pos.iter xO p (Z.to_pos (53 - Zpos (digits2_pos p))))
              (Zpos (digits2_pos p) - 53).
Proof.
  intros Hd. unfold binary_round.
  set (d := Zpos (digits2_pos p)) in *.
  assert (Hd1 : 1 <= d) by (subst d; lia).
  assert (Hfexp : fexp prec emax (d + 0) = d - 53).
  { unfold fexp, SpecFloat.emin, prec, emax. lia. }
  rewrite Hfexp. unfold shl_align.
  assert (Hneg : d - 53 - 0 = Zneg (Z.to_pos (53 - d))).
  { rewrite <- Pos2Z.opp_pos, Z2Pos.id by lia. lia. }
  rewrite Hneg.
  set (k := Z.to_pos (53 - d)).
  unfold binary_round_aux, shr_fexp.
  cbn [Zdigits2]. rewrite digits2_pos_shift. fold d.
  assert (Hk : Zpos k = 53 - d) by (subst k; rewrite Z2Pos.id; lia).
  assert (Hz : fexp prec emax (d + Zpos k + (d - 53)) - (d - 53) = 0).
  { unfold fexp, SpecFloat.emin, prec, emax. lia. }
  rewrite Hz. cbn [shr shr_record_of_loc shr_m loc_of_shr_record round_nearest_even].
  cbn [Zdigits2]. rewrite digits2_pos_shift. fold d. rewrite Hz.
  cbn [shr shr_m].
  destruct (Z.leb_spec (d - 53) (emax - prec)) as [_ | Hbad]; [reflexivity |].
  unfold emax, prec in Hbad. lia.
Qed.

(** [(double)n] for a nonzero [int] is a finite nonzero double of the sign
    of [n]. *)
Lemma double_of_int_nonzero (n : Z) :
  in_int n -> n <> 0 ->
  exists m e, Prim2SF (double_of_int n) = S754_finite (n <? 0) m e.
Proof.
  unfold in_int, INT_MIN, INT_MAX. intros Hn Hnz.
  assert (Hpos : forall p, Zpos p <= 2147483648 ->
            exists m e, Prim2SF (of_uint63 (Uint63.of_Z (Zpos p))) = S754_finite false m e).
  { intros p Hp. rewrite of_uint63_spec, Uint63.of_Z_spec.
    rewrite Z.mod_small
      by (change Uint63.wB with 9223372036854775808; lia).
    cbn [binary_normalize].
    assert (Hd : Zpos (digits2_pos p) <= 32).
    { pose proof (digits2_pos_lower p) as Hlow.
      destruct (Z.le_gt_cases (Zpos (digits2_pos p)) 32) as [Hle | Hgt]; [assumption |].
      assert (Hpow : 2 ^ 32 <= 2 ^ (Zpos (digits2_pos p) - 1))
        by (apply Z.pow_le_mono_r; lia).
      change (2 ^ 32) with 4294967296 in Hpow. lia. }
    rewrite binary_round_small by lia. eauto. }
  unfold double_of_int. destruct n as [| p | p]; [contradiction | |].
  - change (Zpos p <? 0) with false. cbv iota. apply Hpos. lia.
  - change (Zneg p <? 0) with true. cbv iota. change (- Zneg p) with (Zpos p).
    destruct (Hpos p) as (m & e & Hm); [lia |].
    exists m, e. now rewrite opp_spec, Hm.
Qed.

(* ================================================================== *)
(** * Doubles: zeros *)

Lemma div_zero_finite (w y : float) :
  PrimFloat.is_zero w = true ->
  (exists s m e, Prim2SF y = S754_finite s m e) ->
  PrimFloat.is_zero (w / y) = true.
Proof.
  rewrite !is_zero_spec. intros [sw Hw] (s & m & e & Hy).
  rewrite div_spec, Hw, Hy. cbn. eauto.
Qed.

(** A zero divided by a nonzero [int] is a zero. *)
Lemma div_zero_by_int (w : float) (n : Z) :
  in_int n -> n <> 0 -> PrimFloat.is_zero w = true ->
  (w / double_of_int n =? 0.0)%float = true.
Proof.
  intros Hn Hnz Hw. apply div_zero_finite; [assumption |].
  destruct (double_of_int_nonzero n Hn Hnz) as (m & e & Hm). eauto.
Qed.

Lemma mul_zero_finite (z y : float) :
  PrimFloat.is_zero z = true -> is_finite y = true -> PrimFloat.is_zero (z * y) = true.
Proof.
  rewrite !is_zero_spec, is_finite_spec.
  intros [sz Hz] [[sy Hy] | (sy & m & e & Hy)]; rewrite mul_spec, Hz, Hy; cbn; eauto.
Qed.

(** Added to the accumulator 0 and followed by the subtraction of a zero, a
    term comes out unchanged, but for a negative zero, which comes out as
    the positive zero. *)
Lemma zeros_around_term (z0 z1 a : float) :
  PrimFloat.is_zero z0 = true -> PrimFloat.is_zero z1 = true ->
  let f := (0.0 - z0 + a - z1)%float in
  f = a \/ (f = 0.0%float /\ a = (-0.0)%float).
Proof.
  rewrite !is_zero_spec. intros [s0 H0] [s1 H1] f.
  assert (Hf : Prim2SF f = SF64sub (SF64add (SF64sub (S754_zero false) (S754_zero s0))
                                           (Prim2SF a)) (S754_zero s1)).
  { subst f. now rewrite sub_spec, add_spec, sub_spec, H0, H1. }
  destruct (Prim2SF a) as [sa | sa | | sa m e] eqn:Ha.
  - destruct sa.
    + right. split; apply Prim2SF_inj.
      * rewrite Hf. now destruct s0, s1.
      * now rewrite Ha.
    + left. apply Prim2SF_inj. rewrite Hf, Ha. now destruct s0, s1.
  - left. apply Prim2SF_inj. rewrite Hf, Ha. now destruct s0, s1, sa.
  - left. apply Prim2SF_inj. rewrite Hf, Ha. now destruct s0, s1.
  - left. apply Prim2SF_inj. rewrite Hf, Ha. now destruct s0, s1.
Qed.

(* ================================================================== *)
(** * Doubles: the clamped sharpness *)

Lemma fabs_opp (x : float) : fabs (- x) = fabs x.
Proof.
  unfold fabs. apply Prim2SF_inj. rewrite !abs_spec, opp_spec.
  now destruct (Prim2SF x).
Qed.

(** [fmax(fabs(x), 1e-14)] is strictly positive, whatever [x]. *)
Lemma clamped_sharpness_positive (x : float) :
  (0.0 <? fmax (fabs x) 1.0e-14)%float = true.
Proof.
  unfold fmax, fabs.
  destruct (is_nan (abs x)) eqn:Hnan; [reflexivity |].
  change (is_nan 1.0e-14) with false. cbv iota.
  destruct (abs x <? 1.0e-14)%float eqn:Hlt; [reflexivity |].
  assert (Hnot : Prim2SF (abs x) <> S754_nan).
  { intros Hn. apply is_nan_spec in Hn. congruence. }
  rewrite ltb_spec in *. rewrite abs_spec in *.
  change (Prim2SF 0.0) with (S754_zero false).
  change (Prim2SF 1.0e-14) with (S754_finite false 6338253001141147 (-99)) in Hlt.
  destruct (Prim2SF x) as [s | s | | s m e]; cbn [SFabs] in *.
  - discriminate Hlt.
  - reflexivity.
  - now elim Hnot.
  - reflexivity.
Qed.

Lemma read_sign_flipped (nu nu' : list float) (i : Z) :
  sign_flipped nu nu' ->
  (read nu i = Fault /\ read nu' i = Fault) \/
  (exists a b, read nu i = Ret a /\ read nu' i = Ret b /\ (b = a \/ b = (- a)%float)).
Proof.
  intros Hflip. unfold read. destruct (i <? 0); [now left |].
  generalize (Z.to_nat i) as n. clear i.
  induction Hflip as [| a b nu nu' Hab Hrest IH]; intros n.
  - left. now destruct n.
  - destruct n as [| n]; cbn [nth_error]; [| apply IH].
    right. eauto.
Qed.

Lemma read_same_length (a b : list float) (i : Z) :
  length a = length b ->
  (read a i = Fault /\ read b i = Fault) \/
  (exists x y, read a i = Ret x /\ read b i = Ret y
               /\ nth_error a (Z.to_nat i) = Some x /\ nth_error b (Z.to_nat i) = Some y).
Proof.
  intros Hlen. unfold read. destruct (i <? 0); [now left |].
  destruct (nth_error a (Z.to_nat i)) as [x |] eqn:Ha;
    destruct (nth_error b (Z.to_nat i)) as [y |] eqn:Hb.
  - right. eauto 6.
  - apply nth_error_None in Hb. assert (Hsome : nth_error a (Z.to_nat i) <> None) by congruence.
    apply nth_error_Some in Hsome. lia.
  - apply nth_error_None in Ha. assert (Hsome : nth_error b (Z.to_nat i) <> None) by congruence.
    apply nth_error_Some in Hsome. lia.
  - now left.
Qed.

Lemma read_nth_error (a : list float) (i : Z) (x : float) :
  read a i = Ret x -> nth_error a (Z.to_nat i) = Some x.
Proof.
  unfold read. destruct (i <? 0); [discriminate |].
  destruct (nth_error a (Z.to_nat i)); [congruence | discriminate].
Qed.

(* ================================================================== *)
(** * Doubles: infinities and not-a-number through the operations *)

Lemma is_finite_sf (x : float) :
  is_finite x = match Prim2SF x with
                | S754_nan | S754_infinity _ => false
                | _ => true
                end.
Proof.
  unfold is_finite, is_nan, is_infinity.
  rewrite !FloatAxioms.eqb_spec, abs_spec.
  change (Prim2SF infinity) with (S754_infinity false).
  destruct (Prim2SF x) as [s | s | | s m e]; cbn; try reflexivity.
  - now destruct s.
  - unfold SFeqb, SFcompare. rewrite Z.compare_refl, Pos.compare_cont_refl.
    now destruct s.
Qed.

Lemma is_zero_sf (x : float) :
  PrimFloat.is_zero x = match Prim2SF x with S754_zero _ => true | _ => false end.
Proof.
  unfold PrimFloat.is_zero. rewrite FloatAxioms.eqb_spec.
  change (Prim2SF zero) with (S754_zero false).
  destruct (Prim2SF x) as [s | s | | s m e]; cbn; try reflexivity; now destruct s.
Qed.

(** A value that is not finite stays so through the operations. *)
Lemma not_finite_add_l (a b : float) : is_finite a = false -> is_finite (a + b) = false.
Proof.
  rewrite !is_finite_sf, add_spec.
  destruct (Prim2SF a) as [s | s | | s m e]; try discriminate; intros _;
    destruct (Prim2SF b) as [s' | s' | | s' m' e']; try reflexivity;
    destruct s, s'; reflexivity.
Qed.

Lemma not_finite_add_r (a b : float) : is_finite b = false -> is_finite (a + b) = false.
Proof.
  rewrite !is_finite_sf, add_spec.
  destruct (Prim2SF b) as [s | s | | s m e]; try discriminate; intros _;
    destruct (Prim2SF a) as [s' | s' | | s' m' e']; try reflexivity;
    destruct s, s'; reflexivity.
Qed.

Lemma not_finite_sub_l (a b : float) : is_finite a = false -> is_finite (a - b) = false.
Proof.
  rewrite !is_finite_sf, sub_spec.
  destruct (Prim2SF a) as [s | s | | s m e]; try discriminate; intros _;
    destruct (Prim2SF b) as [s' | s' | | s' m' e']; try reflexivity;
    destruct s, s'; reflexivity.
Qed.

Lemma not_finite_mul_l (a b : float) : is_finite a = false -> is_finite (a * b) = false.
Proof.
  rewrite !is_finite_sf, mul_spec.
  destruct (Prim2SF a) as [s | s | | s m e]; try discriminate; intros _;
    destruct (Prim2SF b) as [s' | s' | | s' m' e']; reflexivity.
Qed.

Lemma not_finite_mul_r (a b : float) : is_finite b = false -> is_finite (a * b) = false.
Proof.
  rewrite !is_finite_sf, mul_spec.
  destruct (Prim2SF b) as [s | s | | s m e]; try discriminate; intros _;
    destruct (Prim2SF a) as [s' | s' | | s' m' e']; reflexivity.
Qed.

Lemma square_zero_class (a : float) :
  match Prim2SF a with S754_zero _ | S754_nan => True | _ => False end ->
  match Prim2SF (a * a) with S754_zero _ | S754_nan => True | _ => False end.
Proof.
  rewrite mul_spec. now destruct (Prim2SF a).
Qed.

Lemma div_by_zero_class (x d : float) :
  match Prim2SF d with S754_zero _ | S754_nan => True | _ => False end ->
  is_finite (x / d) = false.
Proof.
  rewrite is_finite_sf, div_spec.
  destruct (Prim2SF d); try contradiction; intros _; now destruct (Prim2SF x).
Qed.

(* ================================================================== *)
(** * Doubles: exact products and quotients *)

Lemma binary_round_aux_sign (s : bool) (m e : Z) (l : location) :
  match binary_round_aux prec emax s m e l with
  | S754_zero s' | S754_infinity s' | S754_finite s' _ _ => s' = s
  | S754_nan => True
  end.
Proof.
  unfold binary_round_aux.
  destruct (shr_fexp prec emax m e l) as [mrs' e'].
  destruct (shr_fexp prec emax _ e' loc_Exact) as [mrs'' e''].
  destruct (shr_m mrs''); [reflexivity | | exact I].
  destruct (e'' <=? emax - prec); reflexivity.
Qed.



Lemma shr_trailing_zeros (k : positive) :
  forall m : positive,
    iter_pos shr_1 k {| shr_m := Zpos (Pos.iter xO m k); shr_r := false; shr_s := false |}
    = {| shr_m := Zpos m; shr_r := false; shr_s := false |}.
Proof.
  induction k as [k IH | k IH |]; intros m; cbn [iter_pos Pos.iter].
  - cbn [shr_1 orb]. now rewrite !IH.
  - now rewrite !IH.
  - reflexivity.
Qed.

Lemma canonical_of_valid (s : bool) (m : positive) (e : Z) :
  valid_binary (S754_finite s m e) = true ->
  fexp prec emax (Zpos (digits2_pos m) + e) = e /\ e <= emax - prec.
Proof.
  cbn [SpecFloat.valid_binary]. unfold bounded, canonical_mantissa.
  intros H. apply andb_prop in H. destruct H as [H1 H2].
  apply Z.eqb_eq in H1. apply Z.leb_le in H2. now split.
Qed.

(** Multiplying by 1 is exact. *)
Lemma mul_one_r (x : float) : (x * 1.0)%float = x.
Proof.
  apply Prim2SF_inj. rewrite mul_spec.
  change (Prim2SF 1.0) with (S754_finite false 4503599627370496 (-52)).
  pose proof (Prim2SF_valid x) as Hvalid.
  destruct (Prim2SF x) as [s | s | | s m e]; try (cbn; now rewrite ?xorb_false_r).
  apply canonical_of_valid in Hvalid. destruct Hvalid as [Hcanon Hbound].
  cbn [SF64mul SFmul]. rewrite xorb_false_r, Pos.mul_comm.
  change (4503599627370496 * m)%positive with (Pos.iter xO m 52).
  unfold binary_round_aux, shr_fexp. cbn [Zdigits2].
  rewrite digits2_pos_shift.
  replace (Zpos (digits2_pos m) + 52 + (e + -52)) with (Zpos (digits2_pos m) + e) by lia.
  rewrite Hcanon.
  replace (e - (e + -52)) with 52 by lia.
  cbn [shr shr_record_of_loc]. rewrite shr_trailing_zeros.
  cbn [shr_m loc_of_shr_record round_nearest_even shr_record_of_loc Zdigits2].
  replace (e + -52 + 52) with e by lia.
  rewrite Hcanon, Z.sub_diag. cbn [shr shr_m].
  apply Z.leb_le in Hbound. now rewrite Hbound.
Qed.

(** A finite nonzero double divided by itself is 1. *)
Lemma div_self (x : float) :
  is_finite x = true -> PrimFloat.is_zero x = false -> (x / x)%float = 1.0%float.
Proof.
  intros Hfin Hnz. apply Prim2SF_inj. rewrite div_spec.
  rewrite is_finite_sf in Hfin. rewrite is_zero_sf in Hnz.
  destruct (Prim2SF x) as [s | s | | s m e]; try discriminate.
  cbn [SF64div SFdiv]. unfold SFdiv_core_binary.
  replace (Zdigits2 (Zpos m) + e - (Zdigits2 (Zpos m) + e)) with 0 by lia.
  rewrite Z.sub_diag.
  change (Z.min (fexp prec emax 0) 0) with (-53).
  change (0 - -53) with 53.
  cbv iota beta.
  rewrite Z.shiftl_mul_pow2 by lia.
  assert (Hdiv : Z.div_eucl (Zpos m * 2 ^ 53) (Zpos m) = (2 ^ 53, 0)).
  { pose proof (Z_div_mod (Zpos m * 2 ^ 53) (Zpos m) eq_refl) as Hspec.
    destruct (Z.div_eucl (Zpos m * 2 ^ 53) (Zpos m)) as [qu re].
    destruct Hspec as [Heq Hre].
    assert (Hqu : qu = 2 ^ 53) by nia.
    subst qu. f_equal. lia. }
  rewrite Hdiv.
  assert (Hloc : new_location (Zpos m) 0 = loc_Exact).
  { unfold new_location, new_location_even, new_location_odd.
    destruct (Z.even (Zpos m)); reflexivity. }
  rewrite Hloc. destruct s; reflexivity.
Qed.

(* ================================================================== *)
(** * Doubles: signs and comparisons *)

(** A square scaled by 1e-4 has the sign bit clear, unless it is
    not-a-number. *)
Lemma scaled_square_sign (f : float) :
  match Prim2SF (f * f * 1.0e-4) with
  | S754_nan => True
  | S754_zero s | S754_infinity s | S754_finite s _ _ => s = false
  end.
Proof.
  rewrite !mul_spec.
  change (Prim2SF 1.0e-4) with (S754_finite false 7378697629483821 (-66)).
  destruct (Prim2SF f) as [s | s | | s m e];
    [destruct s; reflexivity | destruct s; reflexivity | exact I |].
  cbn [SF64mul SFmul].
  pose proof (binary_round_aux_sign (xorb s s) (Zpos (m * m)) (e + e) loc_Exact) as Hsq.
  destruct (binary_round_aux prec emax (xorb s s) (Zpos (m * m)) (e + e) loc_Exact)
    as [s' | s' | | s' m' e']; try exact I; subst s'.
  - destruct s; reflexivity.
  - destruct s; reflexivity.
  - cbn [SF64mul SFmul].
    pose proof (binary_round_aux_sign (xorb (xorb s s) false)
                  (Zpos (m' * 7378697629483821)) (e' + -66) loc_Exact) as Hsc.
    destruct (binary_round_aux prec emax (xorb (xorb s s) false)
                (Zpos (m' * 7378697629483821)) (e' + -66) loc_Exact)
      as [s'' | s'' | | s'' m'' e'']; try exact I; subst s''; destruct s; reflexivity.
Qed.

(** So it is a finite number, not-a-number or the positive infinity. *)
Lemma scaled_square_class (f : float) :
  let v := (f * f * 1.0e-4)%float in
  is_finite v = true \/ v = nan \/ v = infinity.
Proof.
  intros v. pose proof (scaled_square_sign f) as Hsign. fold v in Hsign.
  rewrite is_finite_sf.
  destruct (Prim2SF v) as [s | s | | s m e] eqn:Hv; auto.
  - subst s. right; right. apply Prim2SF_inj. now rewrite Hv.
  - right; left. apply Prim2SF_inj. now rewrite Hv.
Qed.

(** And it does not compare below zero. *)
Lemma scaled_square_not_negative (f : float) : (f * f * 1.0e-4 <? 0.0)%float = false.
Proof.
  pose proof (scaled_square_sign f) as Hsign. rewrite ltb_spec.
  change (Prim2SF 0.0) with (S754_zero false).
  destruct (Prim2SF (f * f * 1.0e-4)) as [s | s | | s m e];
    try reflexivity; subst s; reflexivity.
Qed.

(** A finite sharpness at or above the floor 1e-14 is a positive finite
    double. *)
Lemma above_floor_class (nu : float) :
  (1.0e-14 <=? nu)%float = true -> is_finite nu = true ->
  exists m e, Prim2SF nu = S754_finite false m e.
Proof.
  rewrite leb_spec, is_finite_sf.
  change (Prim2SF 1.0e-14) with (S754_finite false 6338253001141147 (-99)).
  destruct (Prim2SF nu) as [s | s | | s m e]; try discriminate.
  destruct s; [discriminate | eauto].
Qed.

(* ================================================================== *)
(** * Doubles: products with a zero *)

Lemma mul_by_zero_class (q r : float) :
  PrimFloat.is_zero q = true ->
  match Prim2SF (q * r) with S754_zero _ | S754_nan => True | _ => False end.
Proof.
  rewrite is_zero_sf, mul_spec.
  destruct (Prim2SF q); try discriminate; intros _; now destruct (Prim2SF r).
Qed.

Lemma not_finite_mul_zero (a : float) : is_finite a = false -> (a * 0.0)%float = nan.
Proof.
  rewrite is_finite_sf. intros Ha. apply Prim2SF_inj. rewrite mul_spec.
  change (Prim2SF 0.0) with (S754_zero false).
  destruct (Prim2SF a); try discriminate; reflexivity.
Qed.

Lemma finite_mul_zero (a : float) :
  is_finite a = true -> PrimFloat.is_zero (a * 0.0) = true.
Proof.
  rewrite is_finite_sf, is_zero_sf, mul_spec.
  change (Prim2SF 0.0) with (S754_zero false).
  destruct (Prim2SF a); try discriminate; reflexivity.
Qed.

(** Adding a zero changes at most the sign of a zero. *)
Lemma add_zero_r_class (b z : float) :
  PrimFloat.is_zero z = true ->
  (b + z)%float = b \/
  (PrimFloat.is_zero (b + z) = true /\ PrimFloat.is_zero b = true).
Proof.
  rewrite !is_zero_sf. intros Hz.
  destruct (Prim2SF z) as [sz | | |] eqn:Hzsf; try discriminate.
  destruct (Prim2SF b) as [sb | sb | | sb m e] eqn:Hb.
  - right. rewrite add_spec, Hb, Hzsf. split; [now destruct sb, sz | reflexivity].
  - left. apply Prim2SF_inj. rewrite add_spec, Hb, Hzsf. reflexivity.
  - left. apply Prim2SF_inj. rewrite add_spec, Hb, Hzsf. reflexivity.
  - left. apply Prim2SF_inj. rewrite add_spec, Hb, Hzsf. reflexivity.
Qed.

(** The products of one factor with two zeros are equal or both zeros. *)
Lemma mul_zeros_class (v t b : float) :
  PrimFloat.is_zero t = true -> PrimFloat.is_zero b = true ->
  (v * t)%float = (v * b)%float \/
  (PrimFloat.is_zero (v * t) = true /\ PrimFloat.is_zero (v * b) = true).
Proof.
  rewrite !is_zero_sf. intros Ht Hb.
  destruct (Prim2SF t) as [st | | |] eqn:Htsf; try discriminate.
  destruct (Prim2SF b) as [sb | | |] eqn:Hbsf; try discriminate.
  destruct (Prim2SF v) as [sv | sv | | sv m e] eqn:Hv.
  - right. now rewrite !mul_spec, Hv, Htsf, Hbsf.
  - left. apply Prim2SF_inj. now rewrite !mul_spec, Hv, Htsf, Hbsf.
  - left. apply Prim2SF_inj. now rewrite !mul_spec, Hv, Htsf, Hbsf.
  - right. now rewrite !mul_spec, Hv, Htsf, Hbsf.
Qed.

(* ================================================================== *)
(** * The loops and their closed forms *)

Section FormVolumeFacts.
Variables (n_shells : Z) (thickness interface : list float).
Hypothesis n_shells_int : in_int n_shells.
Hypothesis thickness_len : (Z.to_nat n_shells <= length thickness)%nat.
Hypothesis interface_len : (Z.to_nat n_shells <= length interface)%nat.

Lemma form_volume_loop_run (k : nat) :
  forall (fuel : nat) (i : Z) (r : float),
    0 <= i -> i + Z.of_nat k = Z.max i n_shells -> (k <= fuel)%nat ->
    form_volume_loop n_shells thickness interface fuel i r =
    Ret (fold_left (fun r i => (r + (elem thickness i + elem interface i))%float)
                   (Zrange i k) r).
Proof.
  induction k as [| k IH]; intros fuel i r Hi Hk Hfuel.
  - destruct fuel; simpl; destruct (Z.ltb_spec i n_shells); try lia; reflexivity.
  - destruct fuel as [| fuel]; [lia |].
    simpl. destruct (Z.ltb_spec i n_shells) as [Hlt | Hge]; [| lia].
    rewrite !read_elem by lia. simpl.
    unfold in_int, INT_MIN, INT_MAX in n_shells_int.
    rewrite int_succ_in_range by (unfold INT_MIN, INT_MAX; lia).
    apply IH; lia.
Qed.

End FormVolumeFacts.

Section StepLoopFacts.
Context `{E : KernelEnv}.
Variables (q : float) (n_steps : Z).
Variables (sld_l dr delta nu_shell : float) (shape_shell : Z).

Local Abbreviation steps := (step_loop q n_steps).
Local Abbreviation body := (sub_step q n_steps sld_l dr delta nu_shell shape_shell).

Lemma step_loop_unfold (fuel : nat) (step : Z) (sld_in f r : float) :
  steps fuel sld_l dr delta nu_shell shape_shell step sld_in f r =
  if step <=? n_steps then
    match fuel with
    | O => Starved
    | S fuel' =>
        let st := body (sld_in, f, r) step in
        steps fuel' sld_l dr delta nu_shell shape_shell (int_succ step)
              (fst (fst st)) (snd (fst st)) (snd st)
    end
  else Ret (f, r).
Proof. destruct fuel; reflexivity. Qed.

Lemma step_loop_run (k : nat) :
  forall (fuel : nat) (step : Z) (sld_in f r : float),
    INT_MIN <= step -> n_steps < INT_MAX ->
    step + Z.of_nat k = Z.max step (n_steps + 1) -> (k <= fuel)%nat ->
    steps fuel sld_l dr delta nu_shell shape_shell step sld_in f r =
    Ret (let st := fold_left body (Zrange step k) (sld_in, f, r) in
         (snd (fst st), snd st)).
Proof.
  induction k as [| k IH]; intros fuel step sld_in f r Hstep Hmax Hk Hfuel;
    rewrite step_loop_unfold.
  - destruct (Z.leb_spec step n_steps); [lia | reflexivity].
  - destruct (Z.leb_spec step n_steps) as [Hle | Hgt]; [| lia].
    destruct fuel as [| fuel]; [lia |].
    cbv zeta. rewrite int_succ_in_range by lia.
    rewrite IH by lia. reflexivity.
Qed.

Lemma step_loop_starved (k : nat) :
  forall (fuel : nat) (step : Z) (sld_in f r : float),
    INT_MIN <= step -> n_steps < INT_MAX ->
    step + Z.of_nat k = Z.max step (n_steps + 1) -> (fuel < k)%nat ->
    steps fuel sld_l dr delta nu_shell shape_shell step sld_in f r = Starved.
Proof.
  induction k as [| k IH]; intros fuel step sld_in f r Hstep Hmax Hk Hfuel; [lia |].
  rewrite step_loop_unfold.
  destruct (Z.leb_spec step n_steps) as [Hle | Hgt]; [| lia].
  destruct fuel as [| fuel]; [reflexivity |].
  cbv zeta. rewrite int_succ_in_range by lia.
  apply IH; lia.
Qed.

(** With [n_steps = INT_MAX] the test [step <= n_steps] holds for every
    [int]: the counter wraps around and the loop never ends. *)
Lemma step_loop_never (fuel : nat) :
  forall (step : Z) (sld_in f r : float),
    n_steps = INT_MAX -> in_int step ->
    steps fuel sld_l dr delta nu_shell shape_shell step sld_in f r = Starved.
Proof.
  induction fuel as [| fuel IH]; intros step sld_in f r Hmax Hstep;
    rewrite step_loop_unfold;
    (destruct (Z.leb_spec step n_steps) as [Hle | Hgt];
     [| unfold in_int in Hstep; lia]).
  - reflexivity.
  - cbv zeta. apply IH; [assumption | apply int_succ_is_int].
Qed.

Lemma step_loop_outcome (fuel : nat) (sld_in f r : float) :
  in_int n_steps ->
  steps fuel sld_l dr delta nu_shell shape_shell 1 sld_in f r = Starved \/
  steps fuel sld_l dr delta nu_shell shape_shell 1 sld_in f r =
    Ret (let st := fold_left body (Zrange 1 (Z.to_nat n_steps)) (sld_in, f, r) in
         (snd (fst st), snd st)).
Proof.
  intros Hn. unfold in_int in Hn.
  destruct (Z.eq_dec n_steps INT_MAX) as [Hmax | Hmax].
  - left. apply step_loop_never; [assumption |].
    unfold in_int, INT_MIN, INT_MAX. lia.
  - destruct (Nat.le_gt_cases (Z.to_nat n_steps) fuel) as [Hfuel | Hfuel].
    + right. apply step_loop_run; unfold INT_MIN in *; lia.
    + left. apply (step_loop_starved (Z.to_nat n_steps)); unfold INT_MIN in *; lia.
Qed.
End StepLoopFacts.

Section ShellLoopFacts.
Context `{E : KernelEnv}.
Variables (q : float) (n_shells : Z) (sld_solvent : float)
          (sld thickness interface shape nu : list float) (n_steps : Z).
Hypothesis n_shells_int : in_int n_shells.
Hypothesis n_steps_int : in_int n_steps.
Hypothesis sld_len : (Z.to_nat n_shells <= length sld)%nat.
Hypothesis thickness_len : (Z.to_nat n_shells <= length thickness)%nat.
Hypothesis interface_len : (Z.to_nat n_shells <= length interface)%nat.
Hypothesis shape_len : (Z.to_nat n_shells <= length shape)%nat.
Hypothesis nu_len : (Z.to_nat n_shells <= length nu)%nat.

Local Abbreviation shells :=
  (shell_loop q n_shells sld_solvent sld thickness interface shape nu n_steps).
Local Abbreviation shell_body :=
  (shell_step graded_by_step q n_shells sld_solvent sld thickness interface shape nu n_steps).

Lemma shell_loop_unfold (gas fuel : nat) (shell : Z) (f r : float) :
  shells gas fuel shell f r =
  if shell <? n_shells then
    match fuel with
    | O => Starved
    | S fuel' =>
        sld_l <- read sld shell ;;
        let f := (f - M_4PI_3 * cube r * sld_l * sph_j1c (q * r))%float in
        t <- read thickness shell ;;
        let r := (r + t)%float in
        let f := (f + M_4PI_3 * cube r * sld_l * sph_j1c (q * r))%float in
        w <- read interface shell ;;
        let dr := (w / double_of_int n_steps)%float in
        sld_next <- (if shell =? int_sub n_shells 1 then Ret sld_solvent
                     else read sld (int_add shell 1)) ;;
        let delta := (sld_next - sld_l)%float in
        nu_i <- read nu shell ;;
        let nu_shell := fmax (fabs nu_i) 1.0e-14%float in
        shape_i <- read shape shell ;;
        let shape_shell := double_to_int shape_i in
        if (dr =? 0.0)%float then
          shells gas fuel' (int_succ shell) f r
        else
          fr <- step_loop q n_steps gas sld_l dr delta nu_shell shape_shell 1 sld_l f r ;;
          shells gas fuel' (int_succ shell) (fst fr) (snd fr)
    end
  else Ret (f, r).
Proof. destruct fuel; reflexivity. Qed.

(** One iteration, with every array read inside its bounds. *)
Lemma shell_loop_iter (gas fuel : nat) (shell : Z) (f r : float) :
  0 <= shell < n_shells ->
  shells gas (S fuel) shell f r =
  let sld_l := elem sld shell in
  let f1 := (f - uniform_term q r sld_l)%float in
  let r1 := (r + elem thickness shell)%float in
  let f2 := (f1 + uniform_term q r1 sld_l)%float in
  let dr := step_width interface n_steps shell in
  if (dr =? 0.0)%float then shells gas fuel (shell + 1) f2 r1
  else
    fr <- step_loop q n_steps gas sld_l dr
            (contrast_change n_shells sld_solvent sld shell)
            (effective_nu nu shell) (shape_code shape shell) 1 sld_l f2 r1 ;;
    shells gas fuel (shell + 1) (fst fr) (snd fr).
Proof.
  intros Hshell. unfold in_int, INT_MIN, INT_MAX in n_shells_int.
  rewrite shell_loop_unfold.
  destruct (Z.ltb_spec shell n_shells) as [_ | Hge]; [| lia].
  rewrite (read_elem sld shell), (read_elem thickness shell),
    (read_elem interface shell), (read_elem nu shell), (read_elem shape shell) by lia.
  rewrite int_succ_in_range by (unfold INT_MIN, INT_MAX; lia).
  assert (Hnext : (if shell =? int_sub n_shells 1 then Ret sld_solvent
                   else read sld (int_add shell 1)) =
                  Ret (if shell =? n_shells - 1 then sld_solvent
                       else elem sld (shell + 1))).
  { unfold int_sub, int_add.
    rewrite (wrap_int_in_range (n_shells - 1))
      by (unfold in_int, INT_MIN, INT_MAX; lia).
    destruct (Z.eqb_spec shell (n_shells - 1)) as [Heq | Hne]; [reflexivity |].
    rewrite (wrap_int_in_range (shell + 1))
      by (unfold in_int, INT_MIN, INT_MAX; lia).
    apply read_elem; lia. }
  rewrite Hnext. reflexivity.
Qed.

Lemma shell_step_unfold (f r : float) (shell : Z) :
  shell_body (f, r) shell =
  let sld_l := elem sld shell in
  let f1 := (f - uniform_term q r sld_l)%float in
  let r1 := (r + elem thickness shell)%float in
  let f2 := (f1 + uniform_term q r1 sld_l)%float in
  let dr := step_width interface n_steps shell in
  if (dr =? 0.0)%float then (f2, r1)
  else interface_sum q n_steps sld_l dr
         (contrast_change n_shells sld_solvent sld shell)
         (effective_nu nu shell) (shape_code shape shell) f2 r1.
Proof.
  unfold shell_step, graded_by_step. cbn [fst snd]. cbv zeta.
  destruct (step_width interface n_steps shell =? 0.0)%float; reflexivity.
Qed.

Lemma shell_loop_outcome (gas : nat) (k : nat) :
  forall (fuel : nat) (shell : Z) (f r : float),
    0 <= shell -> shell + Z.of_nat k = Z.max shell n_shells ->
    shells gas fuel shell f r = Starved \/
    shells gas fuel shell f r = Ret (fold_left shell_body (Zrange shell k) (f, r)).
Proof.
  induction k as [| k IH]; intros fuel shell f r Hshell Hk.
  - right. rewrite shell_loop_unfold.
    destruct (Z.ltb_spec shell n_shells); [lia | reflexivity].
  - destruct fuel as [| fuel].
    + left. rewrite shell_loop_unfold.
      destruct (Z.ltb_spec shell n_shells); [reflexivity | lia].
    + rewrite shell_loop_iter by lia.
      cbn [Zrange fold_left]. rewrite shell_step_unfold. cbv zeta.
      destruct (step_width interface n_steps shell =? 0.0)%float.
      * apply IH; lia.
      * match goal with
        | |- context [step_loop ?a ?b ?c ?d ?e ?f ?g ?h ?i ?j ?k ?l] =>
            destruct (step_loop_outcome a b d e f g h c j k l n_steps_int)
              as [Hst | Hst]; rewrite Hst
        end.
        -- left; reflexivity.
        -- cbn [bind fst snd]. unfold interface_sum. apply IH; lia.
Qed.

Lemma shell_loop_run (gas : nat) (k : nat) :
  n_steps < INT_MAX -> (Z.to_nat n_steps <= gas)%nat ->
  forall (fuel : nat) (shell : Z) (f r : float),
    0 <= shell -> shell + Z.of_nat k = Z.max shell n_shells -> (k <= fuel)%nat ->
    shells gas fuel shell f r = Ret (fold_left shell_body (Zrange shell k) (f, r)).
Proof.
  intros Hmax Hgas. unfold in_int in n_steps_int.
  induction k as [| k IH]; intros fuel shell f r Hshell Hk Hfuel.
  - rewrite shell_loop_unfold.
    destruct (Z.ltb_spec shell n_shells); [lia | reflexivity].
  - destruct fuel as [| fuel]; [lia |].
    rewrite shell_loop_iter by lia.
    cbn [Zrange fold_left]. rewrite shell_step_unfold. cbv zeta.
    destruct (step_width interface n_steps shell =? 0.0)%float.
    + apply IH; lia.
    + rewrite (step_loop_run _ _ _ _ _ _ _ (Z.to_nat n_steps))
        by (unfold INT_MIN in *; lia).
      cbn [bind fst snd]. unfold interface_sum. apply IH; lia.
Qed.

Lemma shell_loop_starved (gas : nat) (k : nat) :
  forall (fuel : nat) (shell : Z) (f r : float),
    0 <= shell -> shell + Z.of_nat k = Z.max shell n_shells -> (fuel < k)%nat ->
    shells gas fuel shell f r = Starved.
Proof.
  induction k as [| k IH]; intros fuel shell f r Hshell Hk Hfuel; [lia |].
  destruct fuel as [| fuel].
  - rewrite shell_loop_unfold.
    destruct (Z.ltb_spec shell n_shells); [reflexivity | lia].
  - rewrite shell_loop_iter by lia. cbv zeta.
    destruct (step_width interface n_steps shell =? 0.0)%float.
    + apply IH; lia.
    + match goal with
      | |- context [step_loop ?a ?b ?c ?d ?e ?f ?g ?h ?i ?j ?k ?l] =>
          destruct (step_loop_outcome a b d e f g h c j k l n_steps_int)
            as [Hst | Hst]; rewrite Hst
      end.
      * reflexivity.
      * cbn [bind fst snd]. apply IH; lia.
Qed.
End ShellLoopFacts.

Section IqFacts.
Context `{E : KernelEnv}.
Variables (q : float) (n_shells : Z) (sld_solvent : float)
          (sld thickness interface shape nu : list float) (n_steps : Z).
Hypothesis n_shells_int : in_int n_shells.
Hypothesis n_steps_int : in_int n_steps.
Hypothesis sld_len : (Z.to_nat n_shells <= length sld)%nat.
Hypothesis thickness_len : (Z.to_nat n_shells <= length thickness)%nat.
Hypothesis interface_len : (Z.to_nat n_shells <= length interface)%nat.
Hypothesis shape_len : (Z.to_nat n_shells <= length shape)%nat.
Hypothesis nu_len : (Z.to_nat n_shells <= length nu)%nat.

Local Abbreviation amplitude :=
  (Iq_amplitude q n_shells sld_solvent sld thickness interface shape nu n_steps).
Local Abbreviation intensity :=
  (Iq q n_shells sld_solvent sld thickness interface shape nu n_steps).
Local Abbreviation closed_amplitude :=
  (telescoped_amplitude graded_by_step
     q n_shells sld_solvent sld thickness interface shape nu n_steps).

(** Whatever the fuel, [Iq] either starves or accumulates the closed form. *)
Lemma Iq_amplitude_outcome (fuel : nat) :
  amplitude fuel = Starved \/ amplitude fuel = Ret closed_amplitude.
Proof.
  unfold Iq_amplitude, telescoped_amplitude.
  destruct (shell_loop_outcome q n_shells sld_solvent sld thickness interface shape nu
              n_steps n_shells_int n_steps_int sld_len thickness_len interface_len
              shape_len nu_len fuel (Z.to_nat n_shells) fuel 0 0.0%float 0.0%float)
    as [Hst | Hst]; try lia; rewrite Hst.
  - left; reflexivity.
  - right; reflexivity.
Qed.

(** With [n_steps] below [INT_MAX], fuel for the longer of the two loops is
    enough. *)
Lemma Iq_amplitude_run (fuel : nat) :
  n_steps < INT_MAX ->
  (Z.to_nat n_shells <= fuel)%nat -> (Z.to_nat n_steps <= fuel)%nat ->
  amplitude fuel = Ret closed_amplitude.
Proof.
  intros Hmax Hshells Hsteps. unfold Iq_amplitude, telescoped_amplitude.
  rewrite shell_loop_run with (k := Z.to_nat n_shells) by (assumption || lia).
  reflexivity.
Qed.

Lemma Iq_outcome (fuel : nat) :
  intensity fuel = Starved \/
  intensity fuel = Ret (closed_amplitude * closed_amplitude * 1.0e-4)%float.
Proof.
  unfold Iq. destruct (Iq_amplitude_outcome fuel) as [Hst | Hst]; rewrite Hst.
  - left; reflexivity.
  - right; reflexivity.
Qed.

Lemma Iq_run (fuel : nat) :
  n_steps < INT_MAX ->
  (Z.to_nat n_shells <= fuel)%nat -> (Z.to_nat n_steps <= fuel)%nat ->
  intensity fuel = Ret (closed_amplitude * closed_amplitude * 1.0e-4)%float.
Proof.
  intros Hmax Hshells Hsteps. unfold Iq.
  rewrite Iq_amplitude_run by assumption. reflexivity.
Qed.
End IqFacts.

(* ================================================================== *)
(** * Not-a-number through the accumulation *)

Section NanPropagation.
Context `{E : KernelEnv}.

Lemma blend_invalid (shape : Z) (nu z : float) :
  ~ 0 <= shape <= 4 -> blend shape nu z = nan.
Proof.
  intros Hshape. unfold blend.
  repeat match goal with
         | |- context [?a =? ?b] => destruct (Z.eqb_spec a b); [lia |]
         end.
  reflexivity.
Qed.

Lemma f_linear_nan_slope (q r contrast : float) : f_linear q r contrast nan = nan.
Proof. unfold f_linear. cbv zeta. now autorewrite with nan_arith. Qed.

Variables (q : float) (n_steps : Z).

Lemma sub_step_keeps_nan (sld_l dr delta nu_shell : float) (shape_shell : Z)
    (st : float * float * float) (step : Z) :
  snd (fst st) = nan ->
  snd (fst (sub_step q n_steps sld_l dr delta nu_shell shape_shell st step)) = nan.
Proof.
  intros Hf. unfold sub_step. cbn [fst snd]. rewrite Hf.
  now autorewrite with nan_arith.
Qed.

Lemma sub_step_invalid (sld_l dr delta nu_shell : float) (shape_shell : Z)
    (st : float * float * float) (step : Z) :
  ~ 0 <= shape_shell <= 4 ->
  snd (fst (sub_step q n_steps sld_l dr delta nu_shell shape_shell st step)) = nan.
Proof.
  intros Hshape. unfold sub_step. cbn [fst snd].
  rewrite blend_invalid by assumption.
  autorewrite with nan_arith. rewrite !f_linear_nan_slope.
  now autorewrite with nan_arith.
Qed.

Lemma sub_steps_keep_nan (sld_l dr delta nu_shell : float) (shape_shell : Z)
    (l : list Z) :
  forall st, snd (fst st) = nan ->
    snd (fst (fold_left (sub_step q n_steps sld_l dr delta nu_shell shape_shell) l st)) = nan.
Proof.
  induction l as [| step l IH]; intros st Hf; simpl; [exact Hf |].
  apply IH. now apply sub_step_keeps_nan.
Qed.

Lemma interface_sum_keeps_nan (sld_l dr delta nu_shell : float) (shape_shell : Z)
    (r : float) :
  fst (interface_sum q n_steps sld_l dr delta nu_shell shape_shell nan r) = nan.
Proof. unfold interface_sum. cbn [fst]. now apply sub_steps_keep_nan. Qed.

Lemma interface_sum_invalid (sld_l dr delta nu_shell : float) (shape_shell : Z)
    (f r : float) :
  1 <= n_steps -> ~ 0 <= shape_shell <= 4 ->
  fst (interface_sum q n_steps sld_l dr delta nu_shell shape_shell f r) = nan.
Proof.
  intros Hsteps Hshape. unfold interface_sum. cbn [fst].
  destruct (Z.to_nat n_steps) as [| k] eqn:Hk; [lia |].
  cbn [Zrange fold_left]. apply sub_steps_keep_nan. now apply sub_step_invalid.
Qed.

Variables (graded : float -> float -> bool) (n_shells : Z) (sld_solvent : float)
          (sld thickness interface shape nu : list float).

Local Abbreviation step :=
  (shell_step graded q n_shells sld_solvent sld thickness interface shape nu n_steps).

Lemma shell_step_keeps_nan (st : float * float) (shell : Z) :
  fst st = nan -> fst (step st shell) = nan.
Proof.
  intros Hf. unfold shell_step. rewrite Hf. autorewrite with nan_arith.
  destruct (graded _ _); [apply interface_sum_keeps_nan | reflexivity].
Qed.

Lemma shell_step_invalid (st : float * float) (shell : Z) :
  1 <= n_steps -> ~ 0 <= shape_code shape shell <= 4 ->
  graded (elem interface shell) (step_width interface n_steps shell) = true ->
  fst (step st shell) = nan.
Proof.
  intros Hsteps Hshape Hgraded. unfold shell_step. rewrite Hgraded.
  now apply interface_sum_invalid.
Qed.

Lemma shells_reach_nan (shell : Z) (l : list Z) :
  1 <= n_steps -> ~ 0 <= shape_code shape shell <= 4 ->
  graded (elem interface shell) (step_width interface n_steps shell) = true ->
  forall st, fst st = nan \/ In shell l -> fst (fold_left step l st) = nan.
Proof.
  intros Hsteps Hshape Hgraded.
  induction l as [| i l IH]; intros st [Hf | Hin]; simpl.
  - exact Hf.
  - contradiction.
  - apply IH. left. now apply shell_step_keeps_nan.
  - apply IH. destruct Hin as [-> | Hin]; [left | now right].
    now apply shell_step_invalid.
Qed.

Lemma telescoped_amplitude_invalid (shell : Z) :
  0 <= shell < n_shells -> 1 <= n_steps -> ~ 0 <= shape_code shape shell <= 4 ->
  graded (elem interface shell) (step_width interface n_steps shell) = true ->
  telescoped_amplitude graded q n_shells sld_solvent sld thickness interface shape nu n_steps
  = nan.
Proof.
  intros Hshell Hsteps Hshape Hgraded. unfold telescoped_amplitude. cbv zeta.
  rewrite (shells_reach_nan shell) by (assumption || (right; apply Zrange_In; lia)).
  apply sub_nan_l.
Qed.
End NanPropagation.

(* ================================================================== *)
(** * Inputs the shell loop does not tell apart *)

Section SameRuns.
Context `{E : KernelEnv}.
Variables (q : float) (n_shells : Z) (sld_solvent : float)
          (sld thickness interface : list float) (n_steps : Z).

Lemma shell_loop_sign_flipped (shape nu nu' : list float) (gas : nat) :
  sign_flipped nu nu' ->
  forall (fuel : nat) (shell : Z) (f r : float),
    shell_loop q n_shells sld_solvent sld thickness interface shape nu n_steps
               gas fuel shell f r =
    shell_loop q n_shells sld_solvent sld thickness interface shape nu' n_steps
               gas fuel shell f r.
Proof.
  intros Hflip. induction fuel as [| fuel IH]; intros shell f r;
    rewrite !shell_loop_unfold; destruct (shell <? n_shells); try reflexivity.
  destruct (read sld shell) as [sld_l | |]; cbn [bind]; try reflexivity.
  destruct (read thickness shell) as [t | |]; cbn [bind]; try reflexivity.
  destruct (read interface shell) as [w | |]; cbn [bind]; try reflexivity.
  destruct (if shell =? int_sub n_shells 1 then Ret sld_solvent
            else read sld (int_add shell 1)) as [sld_next | |];
    cbn [bind]; try reflexivity.
  destruct (read_sign_flipped nu nu' shell Hflip)
    as [[Hnu Hnu'] | (a & b & Hnu & Hnu' & Hab)]; rewrite Hnu, Hnu'; cbn [bind];
    [reflexivity |].
  assert (Hclamp : fmax (fabs b) 1.0e-14 = fmax (fabs a) 1.0e-14).
  { destruct Hab as [-> | ->]; [reflexivity | now rewrite fabs_opp]. }
  rewrite Hclamp.
  destruct (read shape shell) as [shape_i | |]; cbn [bind]; try reflexivity.
  cbv zeta. destruct (_ =? 0.0)%float; [apply IH |].
  destruct (step_loop _ _ _ _ _ _ _ _ _ _ _ _) as [fr | |]; cbn [bind];
    [apply IH | reflexivity | reflexivity].
Qed.

Hypothesis n_steps_int : in_int n_steps.
Hypothesis n_steps_nonzero : n_steps <> 0.

Lemma shell_loop_same_graded_shapes (shape shape' nu : list float) (gas : nat) :
  same_graded_shapes interface shape shape' ->
  forall (fuel : nat) (shell : Z) (f r : float),
    shell_loop q n_shells sld_solvent sld thickness interface shape nu n_steps
               gas fuel shell f r =
    shell_loop q n_shells sld_solvent sld thickness interface shape' nu n_steps
               gas fuel shell f r.
Proof.
  intros [Hlen Hsame]. induction fuel as [| fuel IH]; intros shell f r;
    rewrite !shell_loop_unfold; destruct (shell <? n_shells); try reflexivity.
  destruct (read sld shell) as [sld_l | |]; cbn [bind]; try reflexivity.
  destruct (read thickness shell) as [t | |]; cbn [bind]; try reflexivity.
  destruct (read interface shell) as [w | |] eqn:Hw; cbn [bind]; try reflexivity.
  destruct (if shell =? int_sub n_shells 1 then Ret sld_solvent
            else read sld (int_add shell 1)) as [sld_next | |];
    cbn [bind]; try reflexivity.
  destruct (read nu shell) as [nu_i | |]; cbn [bind]; try reflexivity.
  destruct (read_same_length shape shape' shell Hlen)
    as [[Hs Hs'] | (x & y & Hs & Hs' & Hx & Hy)]; rewrite Hs, Hs'; cbn [bind];
    [reflexivity |].
  cbv zeta. destruct (w =? 0.0)%float eqn:Hzero.
  - rewrite (div_zero_by_int w n_steps n_steps_int n_steps_nonzero Hzero). apply IH.
  - assert (Hxy : x = y).
    { apply read_nth_error in Hw.
      specialize (Hsame (Z.to_nat shell) w Hw Hzero). congruence. }
    subst y. destruct (w / double_of_int n_steps =? 0.0)%float; [apply IH |].
    destruct (step_loop _ _ _ _ _ _ _ _ _ _ _ _) as [fr | |]; cbn [bind];
      [apply IH | reflexivity | reflexivity].
Qed.
End SameRuns.

(* ================================================================== *)
(** * [f_linear] where [q r] is zero *)

Section AtZero.
Context `{E : KernelEnv}.

Lemma f_linear_unfold (q r contrast slope : float) :
  f_linear q r contrast slope =
  (M_4PI_3 * cube r * (sph_j1c (q * r) * contrast + slope_factor q r * slope))%float.
Proof. reflexivity. Qed.

(** The quotient by [(q r)^4] is an infinity or not-a-number when [q] is
    a zero. *)
Lemma slope_factor_at_q_zero (q r : float) :
  PrimFloat.is_zero q = true -> is_finite (slope_factor q r) = false.
Proof.
  intros Hq. unfold slope_factor. cbv zeta.
  apply div_by_zero_class. apply square_zero_class. apply square_zero_class.
  now apply mul_by_zero_class.
Qed.

Lemma f_linear_at_q_zero (q r contrast slope : float) :
  PrimFloat.is_zero q = true -> is_finite (f_linear q r contrast slope) = false.
Proof.
  intros Hq. rewrite f_linear_unfold.
  apply not_finite_mul_r, not_finite_add_r, not_finite_mul_l.
  now apply slope_factor_at_q_zero.
Qed.

Variables (q : float) (n_steps : Z).

Lemma sub_step_keeps_not_finite (sld_l dr delta nu_shell : float) (shape_shell : Z)
    (st : float * float * float) (step : Z) :
  is_finite (snd (fst st)) = false ->
  is_finite (snd (fst (sub_step q n_steps sld_l dr delta nu_shell shape_shell st step)))
  = false.
Proof.
  intros Hf. unfold sub_step. cbn [fst snd].
  now apply not_finite_add_l, not_finite_sub_l.
Qed.

Lemma sub_step_at_q_zero (sld_l dr delta nu_shell : float) (shape_shell : Z)
    (st : float * float * float) (step : Z) :
  PrimFloat.is_zero q = true ->
  is_finite (snd (fst (sub_step q n_steps sld_l dr delta nu_shell shape_shell st step)))
  = false.
Proof.
  intros Hq. unfold sub_step. cbn [fst snd].
  now apply not_finite_add_r, f_linear_at_q_zero.
Qed.

Lemma sub_steps_keep_not_finite (sld_l dr delta nu_shell : float) (shape_shell : Z)
    (l : list Z) :
  forall st, is_finite (snd (fst st)) = false ->
    is_finite (snd (fst (fold_left (sub_step q n_steps sld_l dr delta nu_shell shape_shell)
                                   l st))) = false.
Proof.
  induction l as [| step l IH]; intros st Hf; simpl; [exact Hf |].
  apply IH. now apply sub_step_keeps_not_finite.
Qed.

Lemma interface_sum_keeps_not_finite (sld_l dr delta nu_shell : float) (shape_shell : Z)
    (f r : float) :
  is_finite f = false ->
  is_finite (fst (interface_sum q n_steps sld_l dr delta nu_shell shape_shell f r)) = false.
Proof.
  intros Hf. unfold interface_sum. cbn [fst]. now apply sub_steps_keep_not_finite.
Qed.

Lemma interface_sum_at_q_zero (sld_l dr delta nu_shell : float) (shape_shell : Z)
    (f r : float) :
  PrimFloat.is_zero q = true -> 1 <= n_steps ->
  is_finite (fst (interface_sum q n_steps sld_l dr delta nu_shell shape_shell f r)) = false.
Proof.
  intros Hq Hsteps. unfold interface_sum. cbn [fst].
  destruct (Z.to_nat n_steps) as [| k] eqn:Hk; [lia |].
  cbn [Zrange fold_left]. apply sub_steps_keep_not_finite. now apply sub_step_at_q_zero.
Qed.

Variables (graded : float -> float -> bool) (n_shells : Z) (sld_solvent : float)
          (sld thickness interface shape nu : list float).

Local Abbreviation step :=
  (shell_step graded q n_shells sld_solvent sld thickness interface shape nu n_steps).

Lemma shell_step_keeps_not_finite (st : float * float) (shell : Z) :
  is_finite (fst st) = false -> is_finite (fst (step st shell)) = false.
Proof.
  intros Hf. unfold shell_step.
  assert (Hf' : is_finite (fst st - uniform_term q (snd st) (elem sld shell)
                           + uniform_term q (snd st + elem thickness shell)
                                          (elem sld shell)) = false)
    by now apply not_finite_add_l, not_finite_sub_l.
  destruct (graded _ _); [now apply interface_sum_keeps_not_finite | exact Hf'].
Qed.

Lemma shell_step_at_q_zero (st : float * float) (shell : Z) :
  PrimFloat.is_zero q = true -> 1 <= n_steps ->
  graded (elem interface shell) (step_width interface n_steps shell) = true ->
  is_finite (fst (step st shell)) = false.
Proof.
  intros Hq Hsteps Hgraded. unfold shell_step. rewrite Hgraded.
  now apply interface_sum_at_q_zero.
Qed.

Lemma shells_reach_not_finite (shell : Z) (l : list Z) :
  PrimFloat.is_zero q = true -> 1 <= n_steps ->
  graded (elem interface shell) (step_width interface n_steps shell) = true ->
  forall st, is_finite (fst st) = false \/ In shell l ->
    is_finite (fst (fold_left step l st)) = false.
Proof.
  intros Hq Hsteps Hgraded.
  induction l as [| i l IH]; intros st [Hf | Hin]; simpl.
  - exact Hf.
  - contradiction.
  - apply IH. left. now apply shell_step_keeps_not_finite.
  - apply IH. destruct Hin as [-> | Hin]; [left | now right].
    now apply shell_step_at_q_zero.
Qed.

Lemma telescoped_amplitude_at_q_zero (shell : Z) :
  PrimFloat.is_zero q = true -> 0 <= shell < n_shells -> 1 <= n_steps ->
  graded (elem interface shell) (step_width interface n_steps shell) = true ->
  is_finite (telescoped_amplitude graded q n_shells sld_solvent sld thickness interface
                                  shape nu n_steps) = false.
Proof.
  intros Hq Hshell Hsteps Hgraded. unfold telescoped_amplitude. cbv zeta.
  apply not_finite_sub_l.
  apply (shells_reach_not_finite shell); try assumption.
  right. apply Zrange_In. lia.
Qed.
End AtZero.

(* ================================================================== *)
(** * [Iq] and the telescoped sum of the spec *)

(** C1. On arrays that hold [n_shells] entries, with [n_shells >= 0],
    [n_steps >= 1] and a step width [dr] that is zero only where the
    interface width is (the division by [dr] does not degenerate), the
    amplitude [Iq] accumulates is the telescoped sum of the spec and the
    intensity it returns is that amplitude squared times 1e-4: whatever the
    fuel, a run that does not starve returns these values, and with
    [n_steps < INT_MAX] fuel for the longer loop makes the run return them.
    Neither the range of the shape codes nor any condition on [q] is needed
    for the equality. *)
Theorem Iq_is_telescoped_sum `{E : KernelEnv}
    (q : float) (n_shells : Z) (sld_solvent : float)
    (sld thickness interface shape nu : list float) (n_steps : Z) :
  0 <= n_shells <= INT_MAX ->
  1 <= n_steps <= INT_MAX ->
  (Z.to_nat n_shells <= length sld)%nat ->
  (Z.to_nat n_shells <= length thickness)%nat ->
  (Z.to_nat n_shells <= length interface)%nat ->
  (Z.to_nat n_shells <= length shape)%nat ->
  (Z.to_nat n_shells <= length nu)%nat ->
  (forall shell, 0 <= shell < n_shells ->
     (step_width interface n_steps shell =? 0.0)%float =
     (elem interface shell =? 0.0)%float) ->
  let amplitude := spec_amplitude q n_shells sld_solvent sld thickness interface shape nu n_steps in
  let intensity := spec_intensity q n_shells sld_solvent sld thickness interface shape nu n_steps in
  (forall fuel,
     (Iq_amplitude q n_shells sld_solvent sld thickness interface shape nu n_steps fuel = Starved
      /\ Iq q n_shells sld_solvent sld thickness interface shape nu n_steps fuel = Starved)
     \/
     (Iq_amplitude q n_shells sld_solvent sld thickness interface shape nu n_steps fuel
        = Ret amplitude
      /\ Iq q n_shells sld_solvent sld thickness interface shape nu n_steps fuel
        = Ret intensity))
  /\ (n_steps < INT_MAX ->
      forall fuel, (Z.to_nat n_shells <= fuel)%nat -> (Z.to_nat n_steps <= fuel)%nat ->
        Iq_amplitude q n_shells sld_solvent sld thickness interface shape nu n_steps fuel
          = Ret amplitude
        /\ Iq q n_shells sld_solvent sld thickness interface shape nu n_steps fuel
          = Ret intensity).
Proof.
  intros Hshells Hsteps Hsld Hthick Hinter Hshape Hnu Hdr amplitude intensity.
  assert (Hn : in_int n_shells) by int_range.
  assert (Hs : in_int n_steps) by int_range.
  assert (Heq : telescoped_amplitude graded_by_step
                  q n_shells sld_solvent sld thickness interface shape nu n_steps
                = amplitude).
  { subst amplitude. unfold spec_amplitude, telescoped_amplitude.
    rewrite (fold_left_agree
               (shell_step graded_by_step q n_shells sld_solvent sld thickness
                           interface shape nu n_steps)
               (shell_step graded_by_width q n_shells sld_solvent sld thickness
                           interface shape nu n_steps)); [reflexivity |].
    intros st shell Hin. apply Zrange_bounds in Hin.
    unfold shell_step, graded_by_step, graded_by_width.
    rewrite Hdr by lia. reflexivity. }
  split.
  - intros fuel. unfold Iq.
    destruct (Iq_amplitude_outcome q n_shells sld_solvent sld thickness interface
                shape nu n_steps Hn Hs Hsld Hthick Hinter Hshape Hnu fuel)
      as [Hst | Hst]; rewrite Hst.
    + left. split; reflexivity.
    + right. rewrite Heq. split; reflexivity.
  - intros Hmax fuel Hf1 Hf2. unfold Iq.
    rewrite Iq_amplitude_run by assumption.
    rewrite Heq. split; reflexivity.
Qed.

Lemma Iq_two_shells_telescoped :
  @Iq series_env 0.05 2 0.0 [1.0; 3.0]%float [10.0; 4.0]%float [5.0; 2.0]%float
      [1.0; 4.0]%float [2.0; 1.0]%float 3 3
  = Ret (@spec_intensity series_env 0.05 2 0.0 [1.0; 3.0]%float [10.0; 4.0]%float
           [5.0; 2.0]%float [1.0; 4.0]%float [2.0; 1.0]%float 3).
Proof.
  refine (proj2 (proj2 (@Iq_is_telescoped_sum series_env 0.05%float 2 0.0%float
                   [1.0; 3.0]%float [10.0; 4.0]%float [5.0; 2.0]%float
                   [1.0; 4.0]%float [2.0; 1.0]%float 3 _ _ _ _ _ _ _ _) _ 3%nat _ _)).
  - int_range.
  - int_range.
  - int_range.
  - int_range.
  - int_range.
  - int_range.
  - int_range.
  - intros shell Hshell.
    assert (Hcases : shell = 0 \/ shell = 1) by lia.
    destruct Hcases as [-> | ->]; reflexivity.
  - int_range.
  - int_range.
  - int_range.
Defined.

(* ================================================================== *)
(** * One shell without interface *)

(** C2. For one shell of sld 1 and thickness 10 without interface, in a
    solvent of sld 0, at q = 0.05, whatever the number of steps, the shape
    code and the sharpness: with a Bessel term that is finite at 0 and at
    q*r, the amplitude of [Iq] is the uniform-sphere amplitude
    (4/3) pi 10^3 * sph_j1c(0.05*10) (a negative zero would come out as
    the positive zero), and the intensity returned is that amplitude squared
    times 1e-4. *)
Theorem Iq_single_uniform_shell `{E : KernelEnv}
    (n_steps : Z) (shape_0 nu_0 : float) (fuel : nat) :
  1 <= n_steps <= INT_MAX ->
  (1 <= fuel)%nat ->
  is_finite (sph_j1c 0.0) = true ->
  is_finite (sph_j1c (0.05 * 10.0)) = true ->
  let amplitude := (M_4PI_3 * cube 10.0 * sph_j1c (0.05 * 10.0))%float in
  exists f,
    Iq_amplitude 0.05 1 0.0 [1.0]%float [10.0]%float [0.0]%float [shape_0] [nu_0]
                 n_steps fuel = Ret f
    /\ (f = amplitude \/ (f = 0.0%float /\ amplitude = (-0.0)%float))
    /\ Iq 0.05 1 0.0 [1.0]%float [10.0]%float [0.0]%float [shape_0] [nu_0] n_steps fuel
       = Ret (amplitude * amplitude * 1.0e-4)%float.
Proof.
  intros Hsteps Hfuel Hj0 Hj amplitude.
  destruct fuel as [| fuel]; [lia |].
  assert (Hdr : (step_width [0.0]%float n_steps 0 =? 0.0)%float = true).
  { apply div_zero_by_int; [int_range | lia | reflexivity]. }
  set (f := (0.0 - 0.0 * sph_j1c 0.0 + amplitude - 0.0 * sph_j1c (0.05 * 10.0))%float).
  assert (Hamp : Iq_amplitude 0.05 1 0.0 [1.0]%float [10.0]%float [0.0]%float
                   [shape_0] [nu_0] n_steps (S fuel) = Ret f).
  { unfold Iq_amplitude.
    rewrite shell_loop_iter by int_range.
    cbv zeta. rewrite Hdr. rewrite shell_loop_unfold. reflexivity. }
  destruct (zeros_around_term (0.0 * sph_j1c 0.0) (0.0 * sph_j1c (0.05 * 10.0)) amplitude)
    as [Hf | [Hf Ha]]; try (apply mul_zero_finite; [reflexivity | assumption]);
    fold f in Hf; exists f; unfold Iq; rewrite Hamp; cbn [bind].
  - rewrite Hf. repeat split. now left.
  - rewrite Hf, Ha. repeat split. now right.
Qed.

Lemma Iq_single_uniform_shell_series :
  exists f,
    @Iq_amplitude series_env 0.05 1 0.0 [1.0]%float [10.0]%float [0.0]%float
                  [0.0]%float [2.5]%float 10 1 = Ret f
    /\ (f = (M_4PI_3 * cube 10.0 * @sph_j1c series_env (0.05 * 10.0))%float
        \/ (f = 0.0%float /\
            (M_4PI_3 * cube 10.0 * @sph_j1c series_env (0.05 * 10.0))%float
            = (-0.0)%float))
    /\ @Iq series_env 0.05 1 0.0 [1.0]%float [10.0]%float [0.0]%float
           [0.0]%float [2.5]%float 10 1
       = Ret ((M_4PI_3 * cube 10.0 * @sph_j1c series_env (0.05 * 10.0))
              * (M_4PI_3 * cube 10.0 * @sph_j1c series_env (0.05 * 10.0))
              * 1.0e-4)%float.
Proof.
  refine (@Iq_single_uniform_shell series_env 10 0.0%float 2.5%float 1 _ _ _ _).
  - int_range.
  - lia.
  - reflexivity.
  - reflexivity.
Defined.

(* ================================================================== *)
(** * An invalid shape code *)

(** An interface of nonzero width can have a step width of zero: the
    smallest positive double halved rounds to zero, [Iq] skips the interface
    and the invalid shape code 5 is never looked at.  With the Bessel term
    equal to 1 at 0, as the library has it, the shell of thickness 0 below
    gives the intensity 0, not not-a-number. *)
Lemma invalid_shape_behind_vanishing_step :
  ((4.9406564584124654e-324 =? 0.0)%float = false
   /\ (4.9406564584124654e-324 / double_of_int 2 =? 0.0)%float = true)
  /\ forall E : KernelEnv, sph_j1c 0.0 = 1.0%float ->
       shape_code [5.0]%float 0 = 5
       /\ forall fuel, (2 <= fuel)%nat ->
            Iq 0.05 1 0.0 [1.0]%float [0.0]%float [4.9406564584124654e-324]%float
               [5.0]%float [2.0]%float 2 fuel = Ret 0.0%float.
Proof.
  split; [split; reflexivity |].
  intros E Hj. split; [reflexivity |].
  intros fuel Hfuel.
  rewrite Iq_run; try int_range.
  destruct E as [erf pw ex j sn cs inv]. cbn [sph_j1c] in Hj.
  vm_compute. rewrite Hj. reflexivity.
Qed.

(** C3 (amended). When some shell has a shape code outside 0..4 (after the
    truncation to [int]) and a step width [dr = interface[shell]/n_steps]
    that does not compare equal to zero, with [n_steps >= 1], [blend] gives
    not-a-number for that shell, the accumulation carries it to the end and
    the intensity is not-a-number: a run that does not starve returns it, and
    with [n_steps < INT_MAX] fuel for the longer loop makes the run return
    it. *)
Theorem invalid_shape_gives_nan `{E : KernelEnv}
    (q : float) (n_shells : Z) (sld_solvent : float)
    (sld thickness interface shape nu : list float) (n_steps : Z) (shell : Z) :
  0 <= n_shells <= INT_MAX ->
  1 <= n_steps <= INT_MAX ->
  (Z.to_nat n_shells <= length sld)%nat ->
  (Z.to_nat n_shells <= length thickness)%nat ->
  (Z.to_nat n_shells <= length interface)%nat ->
  (Z.to_nat n_shells <= length shape)%nat ->
  (Z.to_nat n_shells <= length nu)%nat ->
  0 <= shell < n_shells ->
  ~ 0 <= shape_code shape shell <= 4 ->
  (step_width interface n_steps shell =? 0.0)%float = false ->
  (forall nu_shell z, blend (shape_code shape shell) nu_shell z = nan)
  /\ (forall fuel,
        Iq q n_shells sld_solvent sld thickness interface shape nu n_steps fuel = Starved
        \/ Iq q n_shells sld_solvent sld thickness interface shape nu n_steps fuel = Ret nan)
  /\ (n_steps < INT_MAX ->
      forall fuel, (Z.to_nat n_shells <= fuel)%nat -> (Z.to_nat n_steps <= fuel)%nat ->
        Iq q n_shells sld_solvent sld thickness interface shape nu n_steps fuel = Ret nan).
Proof.
  intros Hshells Hsteps Hsld Hthick Hinter Hshape Hnu Hshell Hcode Hdr.
  assert (Hn : in_int n_shells) by int_range.
  assert (Hs : in_int n_steps) by int_range.
  assert (Hnan : telescoped_amplitude graded_by_step
                   q n_shells sld_solvent sld thickness interface shape nu n_steps = nan).
  { apply telescoped_amplitude_invalid with (shell := shell); try assumption; try lia.
    unfold graded_by_step. now rewrite Hdr. }
  split; [| split].
  - intros nu_shell z. now apply blend_invalid.
  - intros fuel.
    destruct (Iq_outcome q n_shells sld_solvent sld thickness interface shape nu n_steps
                Hn Hs Hsld Hthick Hinter Hshape Hnu fuel) as [Hst | Hst].
    + now left.
    + right. rewrite Hst, Hnan. reflexivity.
  - intros Hmax fuel Hf1 Hf2.
    rewrite Iq_run by assumption. rewrite Hnan. reflexivity.
Qed.

Lemma invalid_shape_five_gives_nan :
  @Iq series_env 0.05 1 0.0 [1.0]%float [10.0]%float [5.0]%float [5.0]%float [2.0]%float
      10 10 = Ret nan.
Proof.
  refine (proj2 (proj2 (@invalid_shape_gives_nan series_env 0.05%float 1 0.0%float
                   [1.0]%float [10.0]%float [5.0]%float [5.0]%float [2.0]%float 10 0
                   _ _ _ _ _ _ _ _ _ _)) _ 10%nat _ _).
  - int_range.
  - int_range.
  - int_range.
  - int_range.
  - int_range.
  - int_range.
  - int_range.
  - lia.
  - vm_compute. intros [_ H]. apply H. reflexivity.
  - reflexivity.
  - int_range.
  - int_range.
  - int_range.
Defined.

(* ================================================================== *)
(** * [Iq] at [q = 0] *)

(** C4 (defect of the code). At [q = 0] (either zero) [f_linear] divides
    by [(q r)^4 = 0]: the factor of [slope] and every value of [f_linear]
    are an infinity or not-a-number, whatever the radius, the contrast, the
    slope and the math library.  So on a profile with a sub-stepped
    interface ([n_steps >= 1], step width not equal to zero) the intensity at
    [q = 0] is not finite: a run that does not starve returns a value that
    is not finite, and with [n_steps < INT_MAX] fuel for the longer loop
    makes the run return one. *)
Theorem Iq_not_finite_at_q_zero `{E : KernelEnv}
    (q : float) (n_shells : Z) (sld_solvent : float)
    (sld thickness interface shape nu : list float) (n_steps : Z) (shell : Z) :
  PrimFloat.is_zero q = true ->
  0 <= n_shells <= INT_MAX ->
  1 <= n_steps <= INT_MAX ->
  (Z.to_nat n_shells <= length sld)%nat ->
  (Z.to_nat n_shells <= length thickness)%nat ->
  (Z.to_nat n_shells <= length interface)%nat ->
  (Z.to_nat n_shells <= length shape)%nat ->
  (Z.to_nat n_shells <= length nu)%nat ->
  0 <= shell < n_shells ->
  (step_width interface n_steps shell =? 0.0)%float = false ->
  (forall r contrast slope,
     is_finite (slope_factor q r) = false
     /\ is_finite (f_linear q r contrast slope) = false)
  /\ (forall fuel,
        Iq q n_shells sld_solvent sld thickness interface shape nu n_steps fuel = Starved
        \/ exists v,
             Iq q n_shells sld_solvent sld thickness interface shape nu n_steps fuel = Ret v
             /\ is_finite v = false)
  /\ (n_steps < INT_MAX ->
      forall fuel, (Z.to_nat n_shells <= fuel)%nat -> (Z.to_nat n_steps <= fuel)%nat ->
        exists v,
          Iq q n_shells sld_solvent sld thickness interface shape nu n_steps fuel = Ret v
          /\ is_finite v = false).
Proof.
  intros Hq Hshells Hsteps Hsld Hthick Hinter Hshape Hnu Hshell Hdr.
  assert (Hn : in_int n_shells) by int_range.
  assert (Hs : in_int n_steps) by int_range.
  assert (Hbad : is_finite
            (telescoped_amplitude graded_by_step q n_shells sld_solvent sld thickness
               interface shape nu n_steps
             * telescoped_amplitude graded_by_step q n_shells sld_solvent sld thickness
                 interface shape nu n_steps * 1.0e-4) = false).
  { apply not_finite_mul_l, not_finite_mul_l.
    apply telescoped_amplitude_at_q_zero with (shell := shell); try assumption; try lia.
    unfold graded_by_step. now rewrite Hdr. }
  split; [| split].
  - intros r contrast slope.
    split; [now apply slope_factor_at_q_zero | now apply f_linear_at_q_zero].
  - intros fuel.
    destruct (Iq_outcome q n_shells sld_solvent sld thickness interface shape nu n_steps
                Hn Hs Hsld Hthick Hinter Hshape Hnu fuel) as [Hst | Hst]; [now left |].
    right. eexists. split; [exact Hst | exact Hbad].
  - intros Hmax fuel Hf1 Hf2. eexists. split; [apply Iq_run; assumption | exact Hbad].
Qed.

Lemma Iq_not_finite_at_q_zero_graded_shell :
  exists v,
    @Iq series_env 0.0 1 0.0 [1.0]%float [10.0]%float [5.0]%float [1.0]%float [2.0]%float
        3 3 = Ret v
    /\ is_finite v = false.
Proof.
  refine (proj2 (proj2 (@Iq_not_finite_at_q_zero series_env 0.0%float 1 0.0%float
                   [1.0]%float [10.0]%float [5.0]%float [1.0]%float [2.0]%float 3 0
                   _ _ _ _ _ _ _ _ _ _)) _ 3%nat _ _).
  - reflexivity.
  - int_range.
  - int_range.
  - int_range.
  - int_range.
  - int_range.
  - int_range.
  - int_range.
  - lia.
  - reflexivity.
  - int_range.
  - int_range.
  - int_range.
Defined.

(* ================================================================== *)
(** * [f_linear] without slope *)

(** C5 (defect of the code). [f_linear(0, 1, 1, 0)], for every math
    library: the factor of [slope] is a quotient by [(q r)^4 = 0], its
    product with the slope 0 is not-a-number, and so is the value of
    [f_linear]; the uniform-sphere term at the same arguments is (4/3) pi
    when the Bessel term is 1 at 0. *)
Theorem f_linear_without_slope_at_q_zero :
  forall E : KernelEnv,
    ((0.0 <=? 0.0)%float = true /\ (0.0 <=? 1.0)%float = true)
    /\ f_linear 0.0 1.0 1.0 0.0 = nan
    /\ (sph_j1c 0.0 = 1.0%float ->
        (1.0 * (M_4PI_3 * cube 1.0) * sph_j1c (0.0 * 1.0))%float = M_4PI_3
        /\ uniform_term 0.0 1.0 1.0 = M_4PI_3).
Proof.
  intros E. split; [split; reflexivity | split].
  - rewrite f_linear_unfold.
    rewrite (not_finite_mul_zero (slope_factor 0.0 1.0))
      by (now apply slope_factor_at_q_zero).
    now rewrite add_nan_r, mul_nan_r.
  - intros Hj. split.
    + change (0.0 * 1.0)%float with 0.0%float. rewrite Hj. reflexivity.
    + unfold uniform_term. change (0.0 * 1.0)%float with 0.0%float. rewrite Hj.
      reflexivity.
Qed.

(** X3. Away from [q r = 0]: where the factor of [slope] is finite,
    [f_linear(q, r, contrast, 0)] is the uniform-sphere term
    (4/3) pi r^3 * (sph_j1c(q r) * contrast), the product taken in the order
    [f_linear] takes it: the two are the same double, or both are zeros. *)
Theorem f_linear_without_slope `{E : KernelEnv} (q r contrast : float) :
  is_finite (slope_factor q r) = true ->
  let uniform := (M_4PI_3 * cube r * (sph_j1c (q * r) * contrast))%float in
  f_linear q r contrast 0.0 = uniform
  \/ (PrimFloat.is_zero (f_linear q r contrast 0.0) = true
      /\ PrimFloat.is_zero uniform = true).
Proof.
  intros Hfin uniform. subst uniform. rewrite f_linear_unfold.
  destruct (add_zero_r_class (sph_j1c (q * r) * contrast) (slope_factor q r * 0.0)
              (finite_mul_zero _ Hfin)) as [Hsame | [Hz Hz']].
  - left. now rewrite Hsame.
  - now apply mul_zeros_class.
Qed.

Lemma f_linear_without_slope_series :
  @f_linear series_env 0.05 10.0 1.0 0.0
    = (M_4PI_3 * cube 10.0 * (@sph_j1c series_env (0.05 * 10.0) * 1.0))%float
  \/ (PrimFloat.is_zero (@f_linear series_env 0.05 10.0 1.0 0.0) = true
      /\ PrimFloat.is_zero
           (M_4PI_3 * cube 10.0 * (@sph_j1c series_env (0.05 * 10.0) * 1.0)) = true).
Proof.
  refine (@f_linear_without_slope series_env 0.05%float 10.0%float 1.0%float _).
  reflexivity.
Defined.

(* ================================================================== *)
(** * The boundary values of [blend] *)

(** A sharpness of magnitude above the floor can be negative or large.
    C99 has pow(+0, y) = +infinity for y = -2 and expm1 overflow to
    +infinity at 1000: the power law at [nu = -2] starts at infinity, not 0,
    and the exponential growth at [nu = 1000] ends at infinity / infinity,
    not-a-number, not 1. *)
Lemma blend_boundary_fails_off_range :
  ((1.0e-14 <=? abs (-2.0))%float = true /\ (1.0e-14 <=? abs 1000.0)%float = true)
  /\ forall E : KernelEnv,
       pow 0.0 (-2.0) = infinity -> expm1 1000.0 = infinity ->
       blend 1 (-2.0) 0.0 = infinity /\ blend 4 1000.0 1.0 = nan.
Proof.
  split; [split; reflexivity |].
  intros E Hpow Hexp. unfold blend. cbn [Z.eqb Pos.eqb]. split.
  - exact Hpow.
  - change (1000.0 * 1.0)%float with 1000.0%float. rewrite Hexp. reflexivity.
Qed.

Lemma mul_zero_cases (a : float) :
  is_finite a = true -> (a * 0.0)%float = 0.0%float \/ (a * 0.0)%float = (-0.0)%float.
Proof.
  intros Hfin. pose proof (finite_mul_zero _ Hfin) as Hz. rewrite is_zero_sf in Hz.
  destruct (Prim2SF (a * 0.0)) as [s | | |] eqn:Hp; try discriminate.
  destruct s; [right | left]; apply Prim2SF_inj; now rewrite Hp.
Qed.

Lemma is_finite_opp (a : float) : is_finite (- a) = is_finite a.
Proof. rewrite !is_finite_sf, opp_spec. now destruct (Prim2SF a). Qed.

(** The two end points of an exponential shape, [expm1(a z) / expm1(a)]. *)
Lemma expm1_ratio_ends `{E : KernelEnv} (a : float) :
  expm1 0.0 = 0.0%float -> expm1 (-0.0) = (-0.0)%float ->
  is_finite (expm1 a) = true -> PrimFloat.is_zero (expm1 a) = false ->
  (expm1 (a * 1.0) / expm1 a =? 1.0)%float = true
  /\ (is_finite a = true -> (expm1 (a * 0.0) / expm1 a =? 0.0)%float = true).
Proof.
  intros Hexp0 Hexpn0 Hfin Hnz. split.
  - rewrite mul_one_r, (div_self _ Hfin Hnz). reflexivity.
  - intros Ha.
    assert (Hden : exists s m e, Prim2SF (expm1 a) = S754_finite s m e).
    { rewrite is_finite_sf in Hfin. rewrite is_zero_sf in Hnz.
      destruct (Prim2SF (expm1 a)) as [s | s | | s m e]; try discriminate. eauto. }
    destruct (mul_zero_cases a Ha) as [Hz | Hz]; rewrite Hz, ?Hexp0, ?Hexpn0;
      (apply div_zero_finite; [reflexivity | exact Hden]).
Qed.

(** C6 (amended). The end points of the shapes 1 to 4, shape by shape, with
    the values C99 fixes for [pow] and [expm1].  The power laws:
    [blend(1, nu, 1) == 1] and [blend(2, nu, 0) == 0] for every [nu], and
    [blend(1, nu, 0) == 0] and [blend(2, nu, 1) == 1] for every [nu > 0].
    The exponential decay, for a [nu] of either sign at which [expm1(-nu)]
    is finite and not zero: [blend(3, nu, 1) == 1], and
    [blend(3, nu, 0) == 0] when [nu] is finite.  The exponential growth
    likewise, with [expm1(nu)]. *)
Theorem blend_boundary_values `{E : KernelEnv} (nu : float) :
  c99_boundary_values ->
  ((blend 1 nu 1.0 =? 1.0)%float = true /\ (blend 2 nu 0.0 =? 0.0)%float = true)
  /\ ((0.0 <? nu)%float = true ->
      (blend 1 nu 0.0 =? 0.0)%float = true /\ (blend 2 nu 1.0 =? 1.0)%float = true)
  /\ (is_finite (expm1 (- nu)) = true -> PrimFloat.is_zero (expm1 (- nu)) = false ->
      (blend 3 nu 1.0 =? 1.0)%float = true
      /\ (is_finite nu = true -> (blend 3 nu 0.0 =? 0.0)%float = true))
  /\ (is_finite (expm1 nu) = true -> PrimFloat.is_zero (expm1 nu) = false ->
      (blend 4 nu 1.0 =? 1.0)%float = true
      /\ (is_finite nu = true -> (blend 4 nu 0.0 =? 0.0)%float = true)).
Proof.
  intros (Hpow0 & Hpow1 & Hexp0 & Hexpn0).
  unfold blend. cbn [Z.eqb Pos.eqb].
  change (1.0 - 0.0)%float with 1.0%float. change (1.0 - 1.0)%float with 0.0%float.
  split; [| split; [| split]].
  - rewrite !Hpow1. split; reflexivity.
  - intros Hpos. rewrite (Hpow0 nu Hpos). split; reflexivity.
  - intros Hfin Hnz.
    destruct (expm1_ratio_ends (- nu) Hexp0 Hexpn0 Hfin Hnz) as [Hone Hzero].
    split; [exact Hone |]. intros Hnu. apply Hzero. now rewrite is_finite_opp.
  - intros Hfin Hnz. now apply expm1_ratio_ends.
Qed.

Lemma blend_boundary_values_series :
  ((@blend series_env 1 2.0 0.0 =? 0.0)%float = true
   /\ (@blend series_env 2 2.0 1.0 =? 1.0)%float = true)
  /\ ((@blend series_env 3 (-2.0) 1.0 =? 1.0)%float = true
      /\ (@blend series_env 3 (-2.0) 0.0 =? 0.0)%float = true)
  /\ ((@blend series_env 4 2.0 1.0 =? 1.0)%float = true
      /\ (@blend series_env 4 2.0 0.0 =? 0.0)%float = true).
Proof.
  assert (Hc99 : @c99_boundary_values series_env).
  { unfold c99_boundary_values. cbn [pow expm1 series_env].
    repeat split.
    intros y Hy. change (0.0 =? 1.0)%float with false.
    change (0.0 =? 0.0)%float with true. cbv iota. now rewrite Hy. }
  pose proof (@blend_boundary_values series_env 2.0%float Hc99) as (_ & Hpow & _ & Hgrow).
  pose proof (@blend_boundary_values series_env (-2.0)%float Hc99) as (_ & _ & Hdecay & _).
  split; [| split].
  - apply Hpow. reflexivity.
  - destruct Hdecay as [Hone Hzero]; [reflexivity | reflexivity |].
    split; [exact Hone | apply Hzero; reflexivity].
  - destruct Hgrow as [Hone Hzero]; [reflexivity | reflexivity |].
    split; [exact Hone | apply Hzero; reflexivity].
Defined.

(* ================================================================== *)
(** * [form_volume]: the volume of the sphere of the total radius *)

(** C7. [form_volume] returns (4/3) pi r^3 for r the sum over the shells of
    [thickness[i] + interface[i]]: with arrays that hold [n_shells] entries
    and fuel for [n_shells] iterations the call returns, with no fault, and
    for no shell at all it returns 0. *)
Theorem form_volume_sphere_of_total_radius
    (n_shells : Z) (thickness interface : list float) (fuel : nat) :
  in_int n_shells ->
  (Z.to_nat n_shells <= length thickness)%nat ->
  (Z.to_nat n_shells <= length interface)%nat ->
  (Z.to_nat n_shells <= fuel)%nat ->
  form_volume n_shells thickness interface fuel =
    Ret (M_4PI_3 * cube (total_radius n_shells thickness interface))%float
  /\ (n_shells = 0 ->
      form_volume n_shells thickness interface fuel = Ret 0.0%float).
Proof.
  intros Hint Ht Hw Hfuel.
  assert (Hrun : form_volume n_shells thickness interface fuel =
                 Ret (M_4PI_3 * cube (total_radius n_shells thickness interface))%float).
  { unfold form_volume, total_radius.
    rewrite form_volume_loop_run with (k := Z.to_nat n_shells) by (assumption || lia).
    reflexivity. }
  split; [exact Hrun |].
  intros ->. rewrite Hrun. reflexivity.
Qed.

Lemma form_volume_two_shells :
  form_volume 2 [10.0; 5.0]%float [1.0; 0.5]%float 2 = Ret (M_4PI_3 * cube 16.5)%float.
Proof.
  refine (proj1 (form_volume_sphere_of_total_radius 2
                   [10.0; 5.0]%float [1.0; 0.5]%float 2 _ _ _ _)).
  - int_range.
  - int_range.
  - int_range.
  - int_range.
Defined.

(* ================================================================== *)
(** * Termination of [Iq] *)

(** At [n_steps = INT_MAX] with one graded interface no amount of fuel lets
    [Iq] return, whatever the math library: the test [step <= n_steps] holds
    for every [int], and [step++] wraps around. *)
Lemma Iq_never_returns_with_INT_MAX_steps :
  ~ (forall (E : KernelEnv) (q : float) (n_shells : Z) (sld_solvent : float)
            (sld thickness interface shape nu : list float) (n_steps : Z),
        0 <= n_shells <= INT_MAX -> 1 <= n_steps <= INT_MAX ->
        length sld = Z.to_nat n_shells -> length thickness = Z.to_nat n_shells ->
        length interface = Z.to_nat n_shells -> length shape = Z.to_nat n_shells ->
        length nu = Z.to_nat n_shells ->
        exists fuel v,
          Iq q n_shells sld_solvent sld thickness interface shape nu n_steps fuel = Ret v).
Proof.
  intros Hall.
  destruct (Hall series_env 0.05%float 1 0.0%float [1.0]%float [10.0]%float [5.0]%float
              [1.0]%float [2.0]%float INT_MAX) as (fuel & v & Hret);
    try reflexivity; try int_range.
  unfold Iq, Iq_amplitude in Hret.
  destruct fuel as [| fuel]; [discriminate Hret |].
  rewrite shell_loop_iter in Hret;
    try int_range.
  cbv zeta in Hret.
  replace (step_width [5.0]%float INT_MAX 0 =? 0.0)%float with false in Hret
    by (vm_compute; reflexivity).
  rewrite step_loop_never in Hret;
    [discriminate Hret | reflexivity | int_range].
Qed.

(** C8 (amended). With [n_shells >= 0] and [1 <= n_steps < INT_MAX], on arrays
    that hold [n_shells] entries, [Iq] terminates and its iteration count is
    fixed by the input: fuel for [max n_shells n_steps] iterations makes it
    return; the loop over the shells returns exactly when it is given fuel
    for [n_shells] iterations, and each interface loop exactly when it is
    given fuel for [n_steps] iterations. *)
Theorem Iq_terminates `{E : KernelEnv}
    (q : float) (n_shells : Z) (sld_solvent : float)
    (sld thickness interface shape nu : list float) (n_steps : Z) :
  0 <= n_shells <= INT_MAX ->
  1 <= n_steps < INT_MAX ->
  (Z.to_nat n_shells <= length sld)%nat ->
  (Z.to_nat n_shells <= length thickness)%nat ->
  (Z.to_nat n_shells <= length interface)%nat ->
  (Z.to_nat n_shells <= length shape)%nat ->
  (Z.to_nat n_shells <= length nu)%nat ->
  (forall fuel, (Z.to_nat n_shells <= fuel)%nat -> (Z.to_nat n_steps <= fuel)%nat ->
     exists v, Iq q n_shells sld_solvent sld thickness interface shape nu n_steps fuel = Ret v)
  /\ (forall gas fuel f r, (Z.to_nat n_steps <= gas)%nat ->
        ((exists fr, shell_loop q n_shells sld_solvent sld thickness interface shape nu
                       n_steps gas fuel 0 f r = Ret fr)
         <-> (Z.to_nat n_shells <= fuel)%nat))
  /\ (forall fuel sld_l dr delta nu_shell shape_shell sld_in f r,
        ((exists fr, step_loop q n_steps fuel sld_l dr delta nu_shell shape_shell
                       1 sld_in f r = Ret fr)
         <-> (Z.to_nat n_steps <= fuel)%nat)).
Proof.
  intros Hshells Hsteps Hsld Hthick Hinter Hshape Hnu.
  assert (Hn : in_int n_shells) by int_range.
  assert (Hs : in_int n_steps) by int_range.
  split; [| split].
  - intros fuel Hf1 Hf2. eexists. apply Iq_run; assumption || lia.
  - intros gas fuel f r Hgas. split.
    + intros [fr Hret].
      destruct (Nat.le_gt_cases (Z.to_nat n_shells) fuel) as [Hle | Hgt]; [exact Hle |].
      rewrite shell_loop_starved with (k := Z.to_nat n_shells) in Hret
        by (assumption || lia).
      discriminate Hret.
    + intros Hle. eexists.
      apply shell_loop_run with (k := Z.to_nat n_shells); assumption || lia.
  - intros fuel sld_l dr delta nu_shell shape_shell sld_in f r. split.
    + intros [fr Hret].
      destruct (Nat.le_gt_cases (Z.to_nat n_steps) fuel) as [Hle | Hgt]; [exact Hle |].
      rewrite step_loop_starved with (k := Z.to_nat n_steps) in Hret
        by int_range.
      discriminate Hret.
    + intros Hle. eexists.
      apply step_loop_run with (k := Z.to_nat n_steps); int_range.
Qed.

Lemma Iq_two_shells_returns :
  exists v,
    @Iq series_env 0.05 2 0.0 [1.0; 3.0]%float [10.0; 4.0]%float [5.0; 2.0]%float
        [1.0; 4.0]%float [2.0; 1.0]%float 3 3
    = Ret v.
Proof.
  refine (proj1 (@Iq_terminates series_env 0.05%float 2 0.0%float
                   [1.0; 3.0]%float [10.0; 4.0]%float [5.0; 2.0]%float
                   [1.0; 4.0]%float [2.0; 1.0]%float 3 _ _ _ _ _ _ _) 3%nat _ _).
  - int_range.
  - int_range.
  - int_range.
  - int_range.
  - int_range.
  - int_range.
  - int_range.
  - int_range.
  - int_range.
Defined.

(* ================================================================== *)
(** * The sign of the sharpness *)

(** C9. The intensity does not depend on the sign of any sharpness: with
    [nu'] made from [nu] by changing the sign of any of its entries, [Iq]
    comes to the same outcome on both, whatever the fuel; the sharpness
    handed to [blend], [fmax(fabs(nu[i]), 1e-14)], is the same for [x] and
    [-x] and strictly positive. *)
Theorem Iq_ignores_sign_of_nu `{E : KernelEnv}
    (q : float) (n_shells : Z) (sld_solvent : float)
    (sld thickness interface shape nu nu' : list float) (n_steps : Z) :
  sign_flipped nu nu' ->
  (forall fuel,
     Iq q n_shells sld_solvent sld thickness interface shape nu n_steps fuel =
     Iq q n_shells sld_solvent sld thickness interface shape nu' n_steps fuel)
  /\ (forall x : float,
        fmax (fabs (- x)) 1.0e-14 = fmax (fabs x) 1.0e-14
        /\ (0.0 <? fmax (fabs x) 1.0e-14)%float = true).
Proof.
  intros Hflip. split.
  - intros fuel. unfold Iq, Iq_amplitude.
    now rewrite (shell_loop_sign_flipped q n_shells sld_solvent sld thickness interface
                   n_steps shape nu nu' fuel Hflip).
  - intros x. split; [now rewrite fabs_opp | apply clamped_sharpness_positive].
Qed.

Lemma Iq_two_shells_negated_nu :
  @Iq series_env 0.05 2 0.0 [1.0; 3.0]%float [10.0; 4.0]%float [5.0; 2.0]%float
      [1.0; 4.0]%float [2.0; 1.0]%float 3 3
  = @Iq series_env 0.05 2 0.0 [1.0; 3.0]%float [10.0; 4.0]%float [5.0; 2.0]%float
      [1.0; 4.0]%float [-2.0; 1.0]%float 3 3.
Proof.
  refine (proj1 (@Iq_ignores_sign_of_nu series_env 0.05%float 2 0.0%float
                   [1.0; 3.0]%float [10.0; 4.0]%float [5.0; 2.0]%float [1.0; 4.0]%float
                   [2.0; 1.0]%float [-2.0; 1.0]%float 3 _) 3%nat).
  constructor; [right; reflexivity |].
  constructor; [left; reflexivity |].
  constructor.
Defined.

(* ================================================================== *)
(** * A shell without interface *)

(** C10. For a shell whose interface width is zero (so that [dr == 0], with
    [n_steps >= 1]) [blend] is not called: [Iq] comes to the same outcome
    whatever the shape codes of such shells are, an invalid code included,
    and the iteration of such a shell is the update by the two uniform terms
    alone. *)
Theorem flat_interface_ignores_shape `{E : KernelEnv}
    (q : float) (n_shells : Z) (sld_solvent : float)
    (sld thickness interface shape shape' nu : list float) (n_steps : Z) :
  1 <= n_steps <= INT_MAX ->
  same_graded_shapes interface shape shape' ->
  (forall fuel,
     Iq q n_shells sld_solvent sld thickness interface shape nu n_steps fuel =
     Iq q n_shells sld_solvent sld thickness interface shape' nu n_steps fuel)
  /\ (forall (shell : Z) (gas fuel : nat) (f r : float),
        n_shells <= INT_MAX ->
        (Z.to_nat n_shells <= length sld)%nat ->
        (Z.to_nat n_shells <= length thickness)%nat ->
        (Z.to_nat n_shells <= length interface)%nat ->
        (Z.to_nat n_shells <= length shape)%nat ->
        (Z.to_nat n_shells <= length nu)%nat ->
        0 <= shell < n_shells ->
        (elem interface shell =? 0.0)%float = true ->
        let sld_l := elem sld shell in
        let r' := (r + elem thickness shell)%float in
        shell_loop q n_shells sld_solvent sld thickness interface shape nu n_steps
                   gas (S fuel) shell f r =
        shell_loop q n_shells sld_solvent sld thickness interface shape nu n_steps
                   gas fuel (shell + 1)
                   (f - uniform_term q r sld_l + uniform_term q r' sld_l)%float r').
Proof.
  intros Hsteps Hsame.
  assert (Hs : in_int n_steps) by int_range.
  assert (Hnz : n_steps <> 0) by lia.
  split.
  - intros fuel. unfold Iq, Iq_amplitude.
    now rewrite (shell_loop_same_graded_shapes q n_shells sld_solvent sld thickness
                   interface n_steps Hs Hnz shape shape' nu fuel Hsame).
  - intros shell gas fuel f r Hmax Hsld Hthick Hinter Hshape Hnu Hshell Hflat sld_l r'.
    rewrite shell_loop_iter
      by (assumption || int_range).
    cbv zeta. unfold step_width.
    now rewrite (div_zero_by_int _ n_steps Hs Hnz Hflat).
Qed.

Lemma Iq_flat_shell_with_shape_seven :
  @Iq series_env 0.05 1 0.0 [1.0]%float [10.0]%float [0.0]%float [7.0]%float [2.0]%float 3 3
  = @Iq series_env 0.05 1 0.0 [1.0]%float [10.0]%float [0.0]%float [1.0]%float [2.0]%float 3 3.
Proof.
  refine (proj1 (@flat_interface_ignores_shape series_env 0.05%float 1 0.0%float
                   [1.0]%float [10.0]%float [0.0]%float [7.0]%float [1.0]%float
                   [2.0]%float 3 _ _) 3%nat).
  - int_range.
  - split; [reflexivity |].
    intros i w Hi Hw. destruct i as [| i].
    + injection Hi as <-. discriminate Hw.
    + destruct i; discriminate Hi.
Defined.

(* ================================================================== *)
(** * Further properties of the kernel *)

(** X1. The error-function shape at the middle of the interface: with an
    error function that is exact at the zeros and a denominator
    [2 erf(nu/sqrt 2)] that is neither zero nor not-a-number, for a
    sharpness at which [nu/sqrt 2] is finite, [blend(0, nu, 0.5)] is 0.5. *)
Theorem blend_erf_midpoint `{E : KernelEnv} (nu : float) :
  is_finite (nu * M_SQRT1_2) = true ->
  sas_erf 0.0 = 0.0%float -> sas_erf (-0.0) = (-0.0)%float ->
  is_nan (2.0 * sas_erf (nu * M_SQRT1_2)) = false ->
  PrimFloat.is_zero (2.0 * sas_erf (nu * M_SQRT1_2)) = false ->
  blend 0 nu 0.5 = 0.5%float.
Proof.
  intros Hfin Herf0 Herfn0 Hnan Hzero. unfold blend. cbn [Z.eqb]. cbv zeta.
  change (2.0 * 0.5 - 1.0)%float with 0.0%float.
  set (d := (2.0 * sas_erf (nu * M_SQRT1_2))%float) in *.
  assert (Hnum : PrimFloat.is_zero (sas_erf (nu * M_SQRT1_2 * 0.0)) = true).
  { pose proof (finite_mul_zero _ Hfin) as Hz. rewrite is_zero_sf in Hz.
    destruct (Prim2SF (nu * M_SQRT1_2 * 0.0)) as [s | | |] eqn:Hp; try discriminate.
    destruct s.
    - replace (nu * M_SQRT1_2 * 0.0)%float with (-0.0)%float
        by (apply Prim2SF_inj; now rewrite Hp).
      now rewrite Herfn0.
    - replace (nu * M_SQRT1_2 * 0.0)%float with 0.0%float
        by (apply Prim2SF_inj; now rewrite Hp).
      now rewrite Herf0. }
  apply Prim2SF_inj. rewrite add_spec, div_spec.
  rewrite is_zero_sf in Hnum, Hzero.
  assert (Hd : Prim2SF d <> S754_nan).
  { intros Hd. apply is_nan_spec in Hd. congruence. }
  change (Prim2SF 0.5) with (S754_finite false 4503599627370496 (-53)).
  destruct (Prim2SF (sas_erf (nu * M_SQRT1_2 * 0.0))) as [sn | | |]; try discriminate.
  destruct (Prim2SF d) as [sd | sd | | sd md ed]; try discriminate;
    [reflexivity | now elim Hd | reflexivity].
Qed.

Lemma blend_erf_midpoint_series : @blend series_env 0 2.5 0.5 = 0.5%float.
Proof.
  refine (@blend_erf_midpoint series_env 2.5%float _ _ _ _ _); reflexivity.
Defined.

(** X2. An intensity that [Iq] returns does not compare below zero: it is a
    non-negative number, the positive infinity or not-a-number. *)
Theorem Iq_not_negative `{E : KernelEnv}
    (q : float) (n_shells : Z) (sld_solvent : float)
    (sld thickness interface shape nu : list float) (n_steps : Z)
    (fuel : nat) (v : float) :
  Iq q n_shells sld_solvent sld thickness interface shape nu n_steps fuel = Ret v ->
  (v <? 0.0)%float = false.
Proof.
  unfold Iq. intros Hret.
  destruct (Iq_amplitude q n_shells sld_solvent sld thickness interface shape nu
              n_steps fuel) as [f | |]; try discriminate Hret.
  cbn [bind] in Hret. injection Hret as <-. apply scaled_square_not_negative.
Qed.

Lemma Iq_not_negative_series : (1668.7234140488731 <? 0.0)%float = false.
Proof.
  refine (@Iq_not_negative series_env 0.05%float 1 0.0%float [1.0]%float [10.0]%float
            [0.0]%float [0.0]%float [2.5]%float 10 5 1668.7234140488731%float _).
  reflexivity.
Defined.

(* ================================================================== *)
(** * [f_linear] at the centre *)

Lemma mul_zero_r_class (q r : float) :
  PrimFloat.is_zero r = true ->
  match Prim2SF (q * r) with S754_zero _ | S754_nan => True | _ => False end.
Proof.
  rewrite is_zero_sf, mul_spec.
  destruct (Prim2SF r); try discriminate; intros _; now destruct (Prim2SF q).
Qed.

Lemma mul_zero_zero (a b : float) :
  PrimFloat.is_zero a = true -> PrimFloat.is_zero b = true ->
  PrimFloat.is_zero (a * b) = true.
Proof.
  rewrite !is_zero_sf, mul_spec.
  destruct (Prim2SF a); try discriminate; destruct (Prim2SF b); try discriminate.
  reflexivity.
Qed.

Lemma finite_mul_a_zero (a z : float) :
  is_finite a = true -> PrimFloat.is_zero z = true -> PrimFloat.is_zero (a * z) = true.
Proof.
  rewrite is_finite_sf, !is_zero_sf, mul_spec.
  destruct (Prim2SF a); try discriminate; destruct (Prim2SF z); try discriminate;
    reflexivity.
Qed.

(** The volume factor (4/3) pi r^3 of a zero radius is a zero. *)
Lemma volume_of_zero (r : float) :
  PrimFloat.is_zero r = true -> PrimFloat.is_zero (M_4PI_3 * cube r) = true.
Proof.
  intros Hr. unfold cube.
  pose proof (mul_zero_zero _ _ Hr Hr) as Hrr.
  pose proof (mul_zero_zero _ _ Hrr Hr) as Hcube.
  apply finite_mul_a_zero; [reflexivity | exact Hcube].
Qed.

Lemma zero_mul_not_finite (v x : float) :
  PrimFloat.is_zero v = true -> is_finite x = false -> (v * x)%float = nan.
Proof.
  rewrite is_zero_sf, is_finite_sf. intros Hv Hx.
  apply Prim2SF_inj. rewrite mul_spec.
  destruct (Prim2SF v); try discriminate; destruct (Prim2SF x); try discriminate;
    reflexivity.
Qed.

Lemma slope_factor_at_r_zero `{E : KernelEnv} (q r : float) :
  PrimFloat.is_zero r = true -> is_finite (slope_factor q r) = false.
Proof.
  intros Hr. unfold slope_factor. cbv zeta.
  apply div_by_zero_class. apply square_zero_class. apply square_zero_class.
  now apply mul_zero_r_class.
Qed.

Lemma f_linear_zero_volume `{E : KernelEnv} (q r contrast slope : float) :
  PrimFloat.is_zero r = true -> f_linear q r contrast slope = nan.
Proof.
  intros Hr. rewrite f_linear_unfold.
  apply zero_mul_not_finite; [now apply volume_of_zero |].
  apply not_finite_add_r, not_finite_mul_l. now apply slope_factor_at_r_zero.
Qed.

(** X4. At the radius 0 (either zero) [f_linear] is not-a-number, whatever
    [q], the contrast, the slope and the math library: the volume factor is
    a zero and the factor of [slope] is a quotient by [(q r)^4], a zero or
    not-a-number, so the product is 0 times a value that is not finite. *)
Theorem f_linear_at_r_zero `{E : KernelEnv} (q r contrast slope : float) :
  PrimFloat.is_zero r = true ->
  PrimFloat.is_zero (M_4PI_3 * cube r) = true
  /\ is_finite (slope_factor q r) = false
  /\ f_linear q r contrast slope = nan.
Proof.
  intros Hr. split; [| split].
  - now apply volume_of_zero.
  - now apply slope_factor_at_r_zero.
  - now apply f_linear_zero_volume.
Qed.

Lemma f_linear_at_r_zero_series : @f_linear series_env 0.05 0.0 1.0 0.5 = nan.
Proof.
  refine (proj2 (proj2 (@f_linear_at_r_zero series_env 0.05%float 0.0%float 1.0%float
                          0.5%float _))).
  reflexivity.
Defined.

(* ================================================================== *)
(** * An interface that starts at the centre *)

Lemma add_zero_zero (a b : float) :
  PrimFloat.is_zero a = true -> PrimFloat.is_zero b = true ->
  PrimFloat.is_zero (a + b) = true.
Proof.
  rewrite !is_zero_sf, add_spec.
  destruct (Prim2SF a) as [sa | | |]; try discriminate;
    destruct (Prim2SF b) as [sb | | |]; try discriminate.
  intros _ _. now destruct sa, sb.
Qed.

Section FromCentre.
Context `{E : KernelEnv}.
Variables (q : float) (n_steps : Z).

Lemma sub_step_at_r_zero (sld_l dr delta nu_shell : float) (shape_shell : Z)
    (st : float * float * float) (step : Z) :
  PrimFloat.is_zero (snd st) = true ->
  snd (fst (sub_step q n_steps sld_l dr delta nu_shell shape_shell st step)) = nan.
Proof.
  intros Hr. unfold sub_step. cbn [fst snd].
  rewrite (f_linear_zero_volume q (snd st)) by assumption.
  now autorewrite with nan_arith.
Qed.

Lemma interface_sum_at_r_zero (sld_l dr delta nu_shell : float) (shape_shell : Z)
    (f r : float) :
  1 <= n_steps -> PrimFloat.is_zero r = true ->
  fst (interface_sum q n_steps sld_l dr delta nu_shell shape_shell f r) = nan.
Proof.
  intros Hsteps Hr. unfold interface_sum. cbn [fst].
  destruct (Z.to_nat n_steps) as [| k] eqn:Hk; [lia |].
  cbn [Zrange fold_left]. apply sub_steps_keep_nan. now apply sub_step_at_r_zero.
Qed.

Variables (graded : float -> float -> bool) (n_shells : Z) (sld_solvent : float)
          (sld thickness interface shape nu : list float).

Local Abbreviation step :=
  (shell_step graded q n_shells sld_solvent sld thickness interface shape nu n_steps).

Lemma shells_keep_nan (l : list Z) :
  forall st, fst st = nan -> fst (fold_left step l st) = nan.
Proof.
  induction l as [| i l IH]; intros st Hf; simpl; [exact Hf |].
  apply IH. now apply shell_step_keeps_nan.
Qed.

Lemma telescoped_amplitude_from_centre :
  1 <= n_shells -> 1 <= n_steps ->
  PrimFloat.is_zero (elem thickness 0) = true ->
  graded (elem interface 0) (step_width interface n_steps 0) = true ->
  telescoped_amplitude graded q n_shells sld_solvent sld thickness interface shape nu n_steps
  = nan.
Proof.
  intros Hshells Hsteps Hthick Hgraded. unfold telescoped_amplitude. cbv zeta.
  destruct (Z.to_nat n_shells) as [| k] eqn:Hk; [lia |].
  cbn [Zrange fold_left]. rewrite shells_keep_nan; [apply sub_nan_l |].
  unfold shell_step. cbn [fst snd]. rewrite Hgraded.
  apply interface_sum_at_r_zero; [assumption |].
  now apply add_zero_zero.
Qed.
End FromCentre.

(** X5. A profile whose first shell has thickness 0 and a sub-stepped
    interface ([n_steps >= 1], step width not equal to zero) starts its
    first sub-step at the radius 0, where [f_linear] is not-a-number: the
    intensity is not-a-number, whatever [q], the other shells and the math
    library.  A run that does not starve returns it, and with
    [n_steps < INT_MAX] fuel for the longer loop makes the run return it. *)
Theorem Iq_graded_from_centre `{E : KernelEnv}
    (q : float) (n_shells : Z) (sld_solvent : float)
    (sld thickness interface shape nu : list float) (n_steps : Z) :
  1 <= n_shells <= INT_MAX ->
  1 <= n_steps <= INT_MAX ->
  (Z.to_nat n_shells <= length sld)%nat ->
  (Z.to_nat n_shells <= length thickness)%nat ->
  (Z.to_nat n_shells <= length interface)%nat ->
  (Z.to_nat n_shells <= length shape)%nat ->
  (Z.to_nat n_shells <= length nu)%nat ->
  PrimFloat.is_zero (elem thickness 0) = true ->
  (step_width interface n_steps 0 =? 0.0)%float = false ->
  (forall fuel,
      Iq q n_shells sld_solvent sld thickness interface shape nu n_steps fuel = Starved
      \/ Iq q n_shells sld_solvent sld thickness interface shape nu n_steps fuel = Ret nan)
  /\ (n_steps < INT_MAX ->
      forall fuel, (Z.to_nat n_shells <= fuel)%nat -> (Z.to_nat n_steps <= fuel)%nat ->
        Iq q n_shells sld_solvent sld thickness interface shape nu n_steps fuel = Ret nan).
Proof.
  intros Hshells Hsteps Hsld Hthick Hinter Hshape Hnu Hzero Hdr.
  assert (Hn : in_int n_shells) by int_range.
  assert (Hs : in_int n_steps) by int_range.
  assert (Hnan : telescoped_amplitude graded_by_step
                   q n_shells sld_solvent sld thickness interface shape nu n_steps = nan).
  { apply telescoped_amplitude_from_centre; try assumption; try lia.
    unfold graded_by_step. now rewrite Hdr. }
  split.
  - intros fuel.
    destruct (Iq_outcome q n_shells sld_solvent sld thickness interface shape nu n_steps
                Hn Hs Hsld Hthick Hinter Hshape Hnu fuel) as [Hst | Hst].
    + now left.
    + right. rewrite Hst, Hnan. reflexivity.
  - intros Hmax fuel Hf1 Hf2.
    rewrite Iq_run by assumption. rewrite Hnan. reflexivity.
Qed.

Lemma Iq_graded_from_centre_series :
  @Iq series_env 0.05 1 0.0 [1.0]%float [0.0]%float [5.0]%float [0.0]%float [2.5]%float
      10 10 = Ret nan.
Proof.
  refine (proj2 (@Iq_graded_from_centre series_env 0.05%float 1 0.0%float
                   [1.0]%float [0.0]%float [5.0]%float [0.0]%float [2.5]%float 10
                   _ _ _ _ _ _ _ _ _) _ 10%nat _ _).
  - int_range.
  - int_range.
  - int_range.
  - int_range.
  - int_range.
  - int_range.
  - int_range.
  - reflexivity.
  - reflexivity.
  - int_range.
  - vm_compute; lia.
  - vm_compute; lia.
Defined.

(* ================================================================== *)
(** * Doubles: negation through the operations *)

Ltac mirror_case :=
  first [ left; reflexivity | right; do 2 eexists; split; reflexivity ].

Lemma binary_round_aux_opp (s : bool) (m e : Z) (l : location) :
  binary_round_aux prec emax (negb s) m e l = SFopp (binary_round_aux prec emax s m e l).
Proof.
  unfold binary_round_aux.
  destruct (shr_fexp prec emax m e l) as [mrs' e'].
  destruct (shr_fexp prec emax _ e' loc_Exact) as [mrs'' e''].
  destruct (shr_m mrs''); [reflexivity | | reflexivity].
  destruct (e'' <=? emax - prec); reflexivity.
Qed.

Lemma binary_round_opp (s : bool) (m : positive) (e : Z) :
  binary_round prec emax (negb s) m e = SFopp (binary_round prec emax s m e).
Proof.
  unfold binary_round. destruct (shl_align m _) as [mz ez].
  apply binary_round_aux_opp.
Qed.

Lemma binary_normalize_opp (z e : Z) :
  mirrored_sf (binary_normalize prec emax z e false)
              (binary_normalize prec emax (- z) e false).
Proof.
  destruct z as [| p | p]; cbn [Z.opp binary_normalize].
  - right. eauto.
  - left. apply (binary_round_opp false).
  - left. apply (binary_round_opp true).
Qed.

Ltac mirror_normalize sx sy :=
  match goal with
  | |- mirrored_sf (binary_normalize _ _ ?z _ _) (binary_normalize _ _ ?z' _ _) =>
      replace z' with (- z) by (destruct sx, sy; cbn [cond_Zopp negb]; lia);
      apply binary_normalize_opp
  end.

Lemma mirrored_sf_add (x x' y y' : spec_float) :
  mirrored_sf x x' -> mirrored_sf y y' -> mirrored_sf (SF64add x y) (SF64add x' y').
Proof.
  intros [-> | (s1 & s1' & -> & ->)] [-> | (s2 & s2' & -> & ->)].
  - destruct x as [sx | sx | | sx mx ex], y as [sy | sy | | sy my ey];
      cbn [SFopp SF64add SFadd];
      try (destruct sx, sy; mirror_case);
      try (destruct sx; mirror_case);
      try (destruct sy; mirror_case);
      try mirror_case.
    mirror_normalize sx sy.
  - destruct x as [sx | sx | | sx mx ex]; cbn [SFopp SF64add SFadd];
      try (destruct sx, s2, s2'; mirror_case); mirror_case.
  - destruct y as [sy | sy | | sy my ey]; cbn [SFopp SF64add SFadd];
      try (destruct sy, s1, s1'; mirror_case); mirror_case.
  - cbn [SF64add SFadd]. destruct s1, s1', s2, s2'; mirror_case.
Qed.

Lemma mirrored_sf_sub (x x' y y' : spec_float) :
  mirrored_sf x x' -> mirrored_sf y y' -> mirrored_sf (SF64sub x y) (SF64sub x' y').
Proof.
  intros [-> | (s1 & s1' & -> & ->)] [-> | (s2 & s2' & -> & ->)].
  - destruct x as [sx | sx | | sx mx ex], y as [sy | sy | | sy my ey];
      cbn [SFopp SF64sub SFsub];
      try (destruct sx, sy; mirror_case);
      try (destruct sx; mirror_case);
      try (destruct sy; mirror_case);
      try mirror_case.
    mirror_normalize sx sy.
  - destruct x as [sx | sx | | sx mx ex]; cbn [SFopp SF64sub SFsub];
      try (destruct sx, s2, s2'; mirror_case); mirror_case.
  - destruct y as [sy | sy | | sy my ey]; cbn [SFopp SF64sub SFsub];
      try (destruct sy, s1, s1'; mirror_case); mirror_case.
  - cbn [SF64sub SFsub]. destruct s1, s1', s2, s2'; mirror_case.
Qed.

Lemma mirrored_sf_mul_l (x x' c : spec_float) :
  mirrored_sf x x' -> mirrored_sf (SF64mul x c) (SF64mul x' c).
Proof.
  intros [-> | (s1 & s1' & -> & ->)].
  - destruct x as [sx | sx | | sx mx ex], c as [sc | sc | | sc mc ec];
      cbn [SFopp SF64mul SFmul];
      try (destruct sx, sc; mirror_case); try mirror_case.
    left. rewrite <- binary_round_aux_opp. now destruct sx, sc.
  - destruct c as [sc | sc | | sc mc ec]; cbn [SF64mul SFmul]; mirror_case.
Qed.

Lemma mirrored_sf_mul_r (x x' c : spec_float) :
  mirrored_sf x x' -> mirrored_sf (SF64mul c x) (SF64mul c x').
Proof.
  intros [-> | (s1 & s1' & -> & ->)].
  - destruct x as [sx | sx | | sx mx ex], c as [sc | sc | | sc mc ec];
      cbn [SFopp SF64mul SFmul];
      try (destruct sx, sc; mirror_case); try mirror_case.
    left. rewrite <- binary_round_aux_opp. now destruct sx, sc.
  - destruct c as [sc | sc | | sc mc ec]; cbn [SF64mul SFmul]; mirror_case.
Qed.

Lemma mirrored_sf_div_l (x x' c : spec_float) :
  mirrored_sf x x' -> mirrored_sf (SF64div x c) (SF64div x' c).
Proof.
  intros [-> | (s1 & s1' & -> & ->)].
  - destruct x as [sx | sx | | sx mx ex], c as [sc | sc | | sc mc ec];
      cbn [SFopp SF64div SFdiv];
      try (destruct sx, sc; mirror_case); try mirror_case.
    destruct (SFdiv_core_binary prec emax (Z.pos mx) ex (Z.pos mc) ec) as [[mz ez] lz].
    left. rewrite <- binary_round_aux_opp. now destruct sx, sc.
  - destruct c as [sc | sc | | sc mc ec]; cbn [SF64div SFdiv]; mirror_case.
Qed.

Lemma mirrored_sf_square (x x' : spec_float) :
  mirrored_sf x x' -> SF64mul x' x' = SF64mul x x.
Proof.
  intros [-> | (s1 & s1' & -> & ->)].
  - destruct x as [sx | sx | | sx mx ex]; cbn [SFopp SF64mul SFmul];
      try (now destruct sx); reflexivity.
  - cbn [SF64mul SFmul]. now destruct s1, s1'.
Qed.

Lemma mirrored_refl_opp (x : float) : mirrored x (- x).
Proof. left. apply opp_spec. Qed.

Lemma mirrored_zero : mirrored 0.0 0.0.
Proof. right. exists false, false. split; reflexivity. Qed.

Lemma mirrored_add (a a' b b' : float) :
  mirrored a a' -> mirrored b b' -> mirrored (a + b) (a' + b').
Proof. unfold mirrored. rewrite !add_spec. apply mirrored_sf_add. Qed.

Lemma mirrored_sub (a a' b b' : float) :
  mirrored a a' -> mirrored b b' -> mirrored (a - b) (a' - b').
Proof. unfold mirrored. rewrite !sub_spec. apply mirrored_sf_sub. Qed.

Lemma mirrored_mul_l (a a' c : float) : mirrored a a' -> mirrored (a * c) (a' * c).
Proof. unfold mirrored. rewrite !mul_spec. apply mirrored_sf_mul_l. Qed.

Lemma mirrored_mul_r (a a' c : float) : mirrored a a' -> mirrored (c * a) (c * a').
Proof. unfold mirrored. rewrite !mul_spec. apply mirrored_sf_mul_r. Qed.

Lemma mirrored_div_l (a a' c : float) : mirrored a a' -> mirrored (a / c) (a' / c).
Proof. unfold mirrored. rewrite !div_spec. apply mirrored_sf_div_l. Qed.

Lemma mirrored_square (f f' : float) : mirrored f f' -> (f' * f')%float = (f * f)%float.
Proof.
  intros Hm. apply Prim2SF_inj. rewrite !mul_spec. now apply mirrored_sf_square.
Qed.

Lemma read_map (g : float -> float) (a : list float) (i : Z) :
  read (map g a) i = (x <- read a i ;; Ret (g x)).
Proof.
  unfold read. destruct (i <? 0); [reflexivity |].
  rewrite nth_error_map. now destruct (nth_error a (Z.to_nat i)).
Qed.

(* ================================================================== *)
(** * Inverting the contrast *)

Section ContrastInversion.
Context `{E : KernelEnv}.
Variables (q : float) (n_steps : Z).

Lemma f_linear_mirrored (r contrast contrast' slope slope' : float) :
  mirrored contrast contrast' -> mirrored slope slope' ->
  mirrored (f_linear q r contrast slope) (f_linear q r contrast' slope').
Proof.
  intros Hc Hs. rewrite !f_linear_unfold.
  apply mirrored_mul_r, mirrored_add; now apply mirrored_mul_r.
Qed.

Lemma sub_step_mirrored (sld_l sld_l' dr delta delta' nu_shell : float) (shape_shell : Z)
    (sld_in sld_in' f f' r : float) (step : Z) :
  mirrored sld_l sld_l' -> mirrored delta delta' ->
  mirrored sld_in sld_in' -> mirrored f f' ->
  let o := sub_step q n_steps sld_l dr delta nu_shell shape_shell (sld_in, f, r) step in
  let o' := sub_step q n_steps sld_l' dr delta' nu_shell shape_shell (sld_in', f', r) step in
  mirrored (fst (fst o)) (fst (fst o')) /\ mirrored (snd (fst o)) (snd (fst o'))
  /\ snd o' = snd o.
Proof.
  intros Hl Hd Hin Hf. unfold sub_step. cbn [fst snd].
  assert (Hout : mirrored (blend shape_shell nu_shell
                             (double_of_int step / double_of_int n_steps) * delta + sld_l)
                          (blend shape_shell nu_shell
                             (double_of_int step / double_of_int n_steps) * delta' + sld_l')).
  { apply mirrored_add; [now apply mirrored_mul_r | assumption]. }
  split; [exact Hout | split; [| reflexivity]].
  set (sld_out := (_ * delta + sld_l)%float) in *.
  set (sld_out' := (_ * delta' + sld_l')%float) in *.
  assert (Hslope : mirrored ((sld_out - sld_in) / dr) ((sld_out' - sld_in') / dr)).
  { now apply mirrored_div_l, mirrored_sub. }
  assert (Hcontrast : mirrored (sld_in - (sld_out - sld_in) / dr * r)
                               (sld_in' - (sld_out' - sld_in') / dr * r)).
  { apply mirrored_sub; [assumption | now apply mirrored_mul_l]. }
  apply mirrored_add; [apply mirrored_sub; [assumption |] |];
    now apply f_linear_mirrored.
Qed.

Lemma step_loop_mirrored (sld_l sld_l' dr delta delta' nu_shell : float) (shape_shell : Z) :
  mirrored sld_l sld_l' -> mirrored delta delta' ->
  forall (fuel : nat) (step : Z) (sld_in sld_in' f f' r : float),
    mirrored sld_in sld_in' -> mirrored f f' ->
    mirrored_run
      (step_loop q n_steps fuel sld_l dr delta nu_shell shape_shell step sld_in f r)
      (step_loop q n_steps fuel sld_l' dr delta' nu_shell shape_shell step sld_in' f' r).
Proof.
  intros Hl Hd. induction fuel as [| fuel IH]; intros step sld_in sld_in' f f' r Hin Hf;
    rewrite (step_loop_unfold _ _ sld_l), (step_loop_unfold _ _ sld_l');
    destruct (step <=? n_steps);
    try exact I; try (split; [exact Hf | reflexivity]).
  cbv zeta.
  destruct (sub_step_mirrored sld_l sld_l' dr delta delta' nu_shell shape_shell
              sld_in sld_in' f f' r step Hl Hd Hin Hf) as (Hout & Hacc & Hr).
  rewrite Hr. now apply IH.
Qed.

Variables (n_shells : Z) (sld_solvent : float)
          (sld thickness interface shape nu : list float).

Lemma shell_loop_mirrored (gas : nat) :
  forall (fuel : nat) (shell : Z) (f f' r : float),
    mirrored f f' ->
    mirrored_run
      (shell_loop q n_shells sld_solvent sld thickness interface shape nu n_steps
                  gas fuel shell f r)
      (shell_loop q n_shells (- sld_solvent) (map PrimFloat.opp sld) thickness interface
                  shape nu n_steps gas fuel shell f' r).
Proof.
  induction fuel as [| fuel IH]; intros shell f f' r Hf;
    rewrite !shell_loop_unfold; destruct (shell <? n_shells);
    try exact I; try (split; [exact Hf | reflexivity]).
  rewrite !read_map.
  destruct (read sld shell) as [sld_l | |]; cbn [bind]; try exact I.
  destruct (read thickness shell) as [t | |]; cbn [bind]; try exact I.
  destruct (read interface shell) as [w | |]; cbn [bind]; try exact I.
  assert (Hl : mirrored sld_l (- sld_l)) by apply mirrored_refl_opp.
  assert (Hacc : mirrored
            (f - M_4PI_3 * cube r * sld_l * sph_j1c (q * r)
             + M_4PI_3 * cube (r + t) * sld_l * sph_j1c (q * (r + t)))
            (f' - M_4PI_3 * cube r * (- sld_l) * sph_j1c (q * r)
             + M_4PI_3 * cube (r + t) * (- sld_l) * sph_j1c (q * (r + t)))).
  { apply mirrored_add; [apply mirrored_sub; [assumption |] |];
      now apply mirrored_mul_l, mirrored_mul_r. }
  assert (Hnext : forall sld_next sld_next', mirrored sld_next sld_next' ->
    mirrored_run
      (nu_i <- read nu shell ;;
       shape_i <- read shape shell ;;
       if (w / double_of_int n_steps =? 0.0)%float then
         shell_loop q n_shells sld_solvent sld thickness interface shape nu n_steps
           gas fuel (int_succ shell)
           (f - M_4PI_3 * cube r * sld_l * sph_j1c (q * r)
            + M_4PI_3 * cube (r + t) * sld_l * sph_j1c (q * (r + t))) (r + t)
       else
         fr <- step_loop q n_steps gas sld_l (w / double_of_int n_steps)
                 (sld_next - sld_l) (fmax (fabs nu_i) 1.0e-14) (double_to_int shape_i)
                 1 sld_l
                 (f - M_4PI_3 * cube r * sld_l * sph_j1c (q * r)
                  + M_4PI_3 * cube (r + t) * sld_l * sph_j1c (q * (r + t))) (r + t) ;;
         shell_loop q n_shells sld_solvent sld thickness interface shape nu n_steps
           gas fuel (int_succ shell) (fst fr) (snd fr))
      (nu_i <- read nu shell ;;
       shape_i <- read shape shell ;;
       if (w / double_of_int n_steps =? 0.0)%float then
         shell_loop q n_shells (- sld_solvent) (map PrimFloat.opp sld) thickness interface
           shape nu n_steps gas fuel (int_succ shell)
           (f' - M_4PI_3 * cube r * (- sld_l) * sph_j1c (q * r)
            + M_4PI_3 * cube (r + t) * (- sld_l) * sph_j1c (q * (r + t))) (r + t)
       else
         fr <- step_loop q n_steps gas (- sld_l) (w / double_of_int n_steps)
                 (sld_next' - - sld_l) (fmax (fabs nu_i) 1.0e-14) (double_to_int shape_i)
                 1 (- sld_l)
                 (f' - M_4PI_3 * cube r * (- sld_l) * sph_j1c (q * r)
                  + M_4PI_3 * cube (r + t) * (- sld_l) * sph_j1c (q * (r + t))) (r + t) ;;
         shell_loop q n_shells (- sld_solvent) (map PrimFloat.opp sld) thickness interface
           shape nu n_steps gas fuel (int_succ shell) (fst fr) (snd fr))).
  { intros sld_next sld_next' Hn.
    destruct (read nu shell) as [nu_i | |]; cbn [bind]; try exact I.
    destruct (read shape shell) as [shape_i | |]; cbn [bind]; try exact I.
    destruct (w / double_of_int n_steps =? 0.0)%float; [now apply IH |].
    pose proof (step_loop_mirrored sld_l (- sld_l) (w / double_of_int n_steps)
                  (sld_next - sld_l) (sld_next' - - sld_l)
                  (fmax (fabs nu_i) 1.0e-14) (double_to_int shape_i) Hl
                  (mirrored_sub _ _ _ _ Hn Hl) gas 1 sld_l (- sld_l) _ _ (r + t) Hl Hacc)
      as Hrun.
    destruct (step_loop q n_steps gas sld_l _ _ _ _ _ _ _ _) as [fr | |],
             (step_loop q n_steps gas (- sld_l) _ _ _ _ _ _ _ _) as [fr' | |];
      cbn [mirrored_run] in Hrun; try contradiction; cbn [bind]; try exact I.
    destruct Hrun as [Hfr Hr]. rewrite Hr. now apply IH. }
  destruct (shell =? int_sub n_shells 1).
  - cbn [bind]. apply Hnext, mirrored_refl_opp.
  - destruct (read sld (int_add shell 1)) as [sld_next | |]; cbn [bind]; try exact I.
    apply Hnext, mirrored_refl_opp.
Qed.
End ContrastInversion.

(** X6. Inverting the contrast: negating every scattering length density,
    of the shells and of the solvent, leaves the outcome of [Iq] unchanged,
    for every input, every fuel and every math library.  Each term of the
    amplitude is linear in the densities, negation commutes with the
    rounding of every operation on them, and the amplitude is squared. *)
Theorem Iq_contrast_inversion `{E : KernelEnv}
    (q : float) (n_shells : Z) (sld_solvent : float)
    (sld thickness interface shape nu : list float) (n_steps : Z) (fuel : nat) :
  Iq q n_shells (- sld_solvent) (map PrimFloat.opp sld) thickness interface shape nu
     n_steps fuel
  = Iq q n_shells sld_solvent sld thickness interface shape nu n_steps fuel.
Proof.
  unfold Iq, Iq_amplitude.
  pose proof (shell_loop_mirrored q n_steps n_shells sld_solvent sld thickness interface
                shape nu fuel fuel 0 0.0%float 0.0%float 0.0%float mirrored_zero) as Hrun.
  destruct (shell_loop q n_shells sld_solvent _ _ _ _ _ _ _ _ _ _ _) as [fr | |],
           (shell_loop q n_shells (- sld_solvent) _ _ _ _ _ _ _ _ _ _ _) as [fr' | |];
    cbn [mirrored_run] in Hrun; try contradiction; cbn [bind]; try reflexivity.
  destruct Hrun as [Hf Hr]. rewrite Hr. cbv zeta. f_equal. f_equal.
  apply mirrored_square. apply mirrored_sub; [assumption |].
  now apply mirrored_mul_l, mirrored_mul_r, mirrored_refl_opp.
Qed.

(* ================================================================== *)
(** * The entries the kernel reads *)

Lemma read_same_prefix (n : Z) (a b : list float) (i : Z) :
  same_prefix n a b -> i < n -> read b i = read a i.
Proof.
  intros Hsame Hi. unfold read. destruct (Z.ltb_spec i 0) as [_ | Hpos]; [reflexivity |].
  rewrite (Hsame (Z.to_nat i)) by lia. reflexivity.
Qed.

Lemma form_volume_loop_first_entries (n_shells : Z)
    (thickness thickness' interface interface' : list float) :
  n_shells <= INT_MAX ->
  same_prefix n_shells thickness thickness' ->
  same_prefix n_shells interface interface' ->
  forall (fuel : nat) (i : Z) (r : float),
    0 <= i ->
    form_volume_loop n_shells thickness' interface' fuel i r =
    form_volume_loop n_shells thickness interface fuel i r.
Proof.
  intros Hmax Hthick Hinter.
  induction fuel as [| fuel IH]; intros i r Hi; cbn [form_volume_loop];
    destruct (Z.ltb_spec i n_shells) as [Hlt | Hge]; try reflexivity.
  rewrite (read_same_prefix n_shells thickness thickness') by assumption.
  rewrite (read_same_prefix n_shells interface interface') by assumption.
  destruct (read thickness i) as [t | |]; cbn [bind]; try reflexivity.
  destruct (read interface i) as [w | |]; cbn [bind]; try reflexivity.
  apply IH. rewrite int_succ_in_range by int_range. lia.
Qed.

Section FirstEntries.
Context `{E : KernelEnv}.
Variables (q : float) (n_shells : Z) (sld_solvent : float)
          (sld sld' thickness thickness' interface interface' : list float)
          (shape shape' nu nu' : list float) (n_steps : Z).
Hypothesis n_shells_max : n_shells <= INT_MAX.
Hypothesis sld_same : same_prefix n_shells sld sld'.
Hypothesis thickness_same : same_prefix n_shells thickness thickness'.
Hypothesis interface_same : same_prefix n_shells interface interface'.
Hypothesis shape_same : same_prefix n_shells shape shape'.
Hypothesis nu_same : same_prefix n_shells nu nu'.

Lemma shell_loop_first_entries (gas : nat) :
  forall (fuel : nat) (shell : Z) (f r : float),
    0 <= shell ->
    shell_loop q n_shells sld_solvent sld' thickness' interface' shape' nu' n_steps
               gas fuel shell f r =
    shell_loop q n_shells sld_solvent sld thickness interface shape nu n_steps
               gas fuel shell f r.
Proof.
  induction fuel as [| fuel IH]; intros shell f r Hshell;
    rewrite !shell_loop_unfold; destruct (Z.ltb_spec shell n_shells) as [Hlt | Hge];
    try reflexivity.
  assert (Hsucc : 0 <= int_succ shell).
  { rewrite int_succ_in_range by int_range. lia. }
  rewrite (read_same_prefix n_shells sld sld' shell) by assumption.
  destruct (read sld shell) as [sld_l | |]; cbn [bind]; try reflexivity.
  rewrite (read_same_prefix n_shells thickness thickness') by assumption.
  destruct (read thickness shell) as [t | |]; cbn [bind]; try reflexivity.
  rewrite (read_same_prefix n_shells interface interface') by assumption.
  destruct (read interface shell) as [w | |]; cbn [bind]; try reflexivity.
  assert (Hnext : (if shell =? int_sub n_shells 1 then Ret sld_solvent
                   else read sld' (int_add shell 1))
                  = (if shell =? int_sub n_shells 1 then Ret sld_solvent
                     else read sld (int_add shell 1))).
  { unfold int_sub, int_add. rewrite !wrap_int_in_range by int_range.
    destruct (Z.eqb_spec shell (n_shells - 1)); [reflexivity |].
    apply (read_same_prefix n_shells); [assumption | lia]. }
  rewrite Hnext.
  destruct (if shell =? int_sub n_shells 1 then Ret sld_solvent
            else read sld (int_add shell 1)) as [sld_next | |];
    cbn [bind]; try reflexivity.
  rewrite (read_same_prefix n_shells nu nu') by assumption.
  destruct (read nu shell) as [nu_i | |]; cbn [bind]; try reflexivity.
  rewrite (read_same_prefix n_shells shape shape') by assumption.
  destruct (read shape shell) as [shape_i | |]; cbn [bind]; try reflexivity.
  cbv zeta. destruct (_ =? 0.0)%float; [now apply IH |].
  destruct (step_loop _ _ _ _ _ _ _ _ _ _ _ _) as [fr | |]; cbn [bind];
    [now apply IH | reflexivity | reflexivity].
Qed.
End FirstEntries.

(** X7. [form_volume] and [Iq] depend on the first [n_shells] entries of
    their arrays only: two calls whose arrays agree on these entries (and may
    differ in length and in every later entry) have the same outcome, for
    every fuel. *)
Theorem kernel_reads_first_entries `{E : KernelEnv}
    (q : float) (n_shells : Z) (sld_solvent : float)
    (sld sld' thickness thickness' interface interface' shape shape' nu nu' : list float)
    (n_steps : Z) (fuel : nat) :
  n_shells <= INT_MAX ->
  same_prefix n_shells sld sld' ->
  same_prefix n_shells thickness thickness' ->
  same_prefix n_shells interface interface' ->
  same_prefix n_shells shape shape' ->
  same_prefix n_shells nu nu' ->
  form_volume n_shells thickness' interface' fuel
  = form_volume n_shells thickness interface fuel
  /\ Iq q n_shells sld_solvent sld' thickness' interface' shape' nu' n_steps fuel
     = Iq q n_shells sld_solvent sld thickness interface shape nu n_steps fuel.
Proof.
  intros Hmax Hsld Hthick Hinter Hshape Hnu. split.
  - unfold form_volume.
    now rewrite (form_volume_loop_first_entries n_shells thickness thickness'
                   interface interface') by (assumption || lia).
  - unfold Iq, Iq_amplitude.
    now rewrite (shell_loop_first_entries q n_shells sld_solvent sld sld'
                   thickness thickness' interface interface' shape shape' nu nu' n_steps)
      by (assumption || lia).
Qed.

Lemma kernel_reads_first_entries_series :
  form_volume 1 [10.0; 7.0]%float [5.0]%float 4
  = form_volume 1 [10.0]%float [5.0; 3.0]%float 4
  /\ @Iq series_env 0.05 1 0.0 [1.0; 8.0]%float [10.0; 7.0]%float [5.0]%float
         [0.0; 2.0]%float [2.5]%float 4 4
     = @Iq series_env 0.05 1 0.0 [1.0]%float [10.0]%float [5.0; 3.0]%float
         [0.0]%float [2.5; 1.0]%float 4 4.
Proof.
  assert (Hsame : forall a b x, same_prefix 1 (x :: a) (x :: b)).
  { intros a b x i Hi. destruct i; [reflexivity | cbn in Hi; lia]. }
  apply (@kernel_reads_first_entries series_env 0.05%float 1 0.0%float
           [1.0]%float [1.0; 8.0]%float [10.0]%float [10.0; 7.0]%float
           [5.0; 3.0]%float [5.0]%float [0.0]%float [0.0; 2.0]%float
           [2.5; 1.0]%float [2.5]%float 4 4%nat);
    first [ int_range | apply Hsame ].
Defined.

(* ================================================================== *)
(** * No shell *)

Lemma zero_sub_zero (z : float) :
  PrimFloat.is_zero z = true -> (0.0 - z)%float = 0.0%float.
Proof.
  rewrite is_zero_sf. intros Hz. apply Prim2SF_inj. rewrite sub_spec.
  change (Prim2SF 0.0) with (S754_zero false).
  destruct (Prim2SF z) as [s | | |]; try discriminate. now destruct s.
Qed.

(** X8. With [n_shells <= 0] no loop body runs and no array is read:
    [form_volume] returns 0 for every fuel, and [Iq] returns 0 for every
    fuel when the solvent density and the Bessel term at [q * 0] are
    finite. *)
Theorem kernel_without_shells `{E : KernelEnv}
    (q : float) (n_shells : Z) (sld_solvent : float)
    (sld thickness interface shape nu : list float) (n_steps : Z) (fuel : nat) :
  n_shells <= 0 ->
  form_volume n_shells thickness interface fuel = Ret 0.0%float
  /\ (is_finite sld_solvent = true -> is_finite (sph_j1c (q * 0.0)) = true ->
      Iq q n_shells sld_solvent sld thickness interface shape nu n_steps fuel
      = Ret 0.0%float).
Proof.
  intros Hn. split.
  - unfold form_volume.
    assert (Hloop : form_volume_loop n_shells thickness interface fuel 0 0.0%float
                    = Ret 0.0%float).
    { destruct fuel; cbn [form_volume_loop];
        destruct (Z.ltb_spec 0 n_shells); try lia; reflexivity. }
    rewrite Hloop. reflexivity.
  - intros Hsolvent Hbessel. unfold Iq, Iq_amplitude.
    rewrite shell_loop_unfold. destruct (Z.ltb_spec 0 n_shells); [lia |].
    cbn [bind fst snd]. cbv zeta.
    change (M_4PI_3 * cube 0.0)%float with 0.0%float.
    rewrite zero_sub_zero; [reflexivity |].
    apply mul_zero_finite; [| assumption].
    apply mul_zero_finite; [reflexivity | assumption].
Qed.

Lemma kernel_without_shells_series :
  @Iq series_env 0.05 0 6.0 [] [] [] [] [] 10 0 = Ret 0.0%float.
Proof.
  refine (proj2 (@kernel_without_shells series_env 0.05%float 0 6.0%float
                   [] [] [] [] [] 10 0%nat _) _ _).
  - lia.
  - reflexivity.
  - reflexivity.
Defined.

(* ================================================================== *)
(** * No sub-step *)

Section NoSubSteps.
Context `{E : KernelEnv}.
Variables (q : float) (n_shells : Z) (sld_solvent : float)
          (sld thickness interface interface' shape shape' nu nu' : list float)
          (n_steps : Z).
Hypothesis no_step : n_steps <= 0.
Hypothesis interface_len : length interface = length interface'.
Hypothesis shape_len : length shape = length shape'.
Hypothesis nu_len : length nu = length nu'.

Lemma step_loop_no_step (fuel : nat) (sld_l dr delta nu_shell : float) (shape_shell : Z)
    (sld_in f r : float) :
  step_loop q n_steps fuel sld_l dr delta nu_shell shape_shell 1 sld_in f r = Ret (f, r).
Proof.
  rewrite step_loop_unfold. destruct (Z.leb_spec 1 n_steps); [lia | reflexivity].
Qed.

Lemma shell_loop_no_sub_steps (gas : nat) :
  forall (fuel : nat) (shell : Z) (f r : float),
    shell_loop q n_shells sld_solvent sld thickness interface' shape' nu' n_steps
               gas fuel shell f r =
    shell_loop q n_shells sld_solvent sld thickness interface shape nu n_steps
               gas fuel shell f r.
Proof.
  induction fuel as [| fuel IH]; intros shell f r;
    rewrite !shell_loop_unfold; destruct (shell <? n_shells); try reflexivity.
  destruct (read sld shell) as [sld_l | |]; cbn [bind]; try reflexivity.
  destruct (read thickness shell) as [t | |]; cbn [bind]; try reflexivity.
  destruct (read_same_length interface interface' shell interface_len)
    as [[Hw Hw'] | (w & w' & Hw & Hw' & _)]; rewrite Hw, Hw'; cbn [bind];
    [reflexivity |].
  destruct (if shell =? int_sub n_shells 1 then Ret sld_solvent
            else read sld (int_add shell 1)) as [sld_next | |];
    cbn [bind]; try reflexivity.
  destruct (read_same_length nu nu' shell nu_len)
    as [[Hnu Hnu'] | (a & a' & Hnu & Hnu' & _)]; rewrite Hnu, Hnu'; cbn [bind];
    [reflexivity |].
  destruct (read_same_length shape shape' shell shape_len)
    as [[Hs Hs'] | (s & s' & Hs & Hs' & _)]; rewrite Hs, Hs'; cbn [bind];
    [reflexivity |].
  cbv zeta. rewrite !step_loop_no_step. cbn [bind fst snd].
  destruct (w' / double_of_int n_steps =? 0.0)%float,
           (w / double_of_int n_steps =? 0.0)%float; apply IH.
Qed.
End NoSubSteps.

(** X9. With [n_steps <= 0] the loop over the sub-steps never runs its
    body, so [Iq] uses neither the interface widths nor the shapes nor the
    sharpness: replacing these three arrays by any others of the same
    lengths leaves the outcome unchanged, for every fuel.  The radius is not
    advanced through an interface either. *)
Theorem Iq_without_sub_steps `{E : KernelEnv}
    (q : float) (n_shells : Z) (sld_solvent : float)
    (sld thickness interface interface' shape shape' nu nu' : list float)
    (n_steps : Z) (fuel : nat) :
  n_steps <= 0 ->
  length interface = length interface' ->
  length shape = length shape' ->
  length nu = length nu' ->
  Iq q n_shells sld_solvent sld thickness interface' shape' nu' n_steps fuel
  = Iq q n_shells sld_solvent sld thickness interface shape nu n_steps fuel.
Proof.
  intros Hsteps Hinter Hshape Hnu. unfold Iq, Iq_amplitude.
  now rewrite (shell_loop_no_sub_steps q n_shells sld_solvent sld thickness
                 interface interface' shape shape' nu nu' n_steps)
    by assumption.
Qed.

Lemma Iq_without_sub_steps_series :
  @Iq series_env 0.05 1 0.0 [1.0]%float [10.0]%float [0.0]%float [7.0]%float [-3.0]%float
      0 4
  = @Iq series_env 0.05 1 0.0 [1.0]%float [10.0]%float [5.0]%float [0.0]%float [2.5]%float
      0 4.
Proof.
  apply (@Iq_without_sub_steps series_env 0.05%float 1 0.0%float [1.0]%float [10.0]%float
           [5.0]%float [0.0]%float [0.0]%float [7.0]%float [2.5]%float [-3.0]%float
           0 4%nat); first [ lia | reflexivity ].
Defined.

(* ================================================================== *)
(** * Arrays shorter than [n_shells] *)

Lemma read_past (a : list float) (i : Z) :
  (length a <= Z.to_nat i)%nat -> read a i = Fault.
Proof.
  intros Hlen. unfold read. destruct (i <? 0); [reflexivity |].
  apply nth_error_None in Hlen. now rewrite Hlen.
Qed.

Lemma no_value_fault {A : Type} : no_value (@Fault A).
Proof. intros v. discriminate. Qed.

Lemma no_value_starved {A : Type} : no_value (@Starved A).
Proof. intros v. discriminate. Qed.

Lemma no_value_bind {A B : Type} (m : outcome A) (k : A -> outcome B) :
  (forall a, no_value (k a)) -> no_value (bind m k).
Proof.
  intros Hk. destruct m as [a | |]; cbn [bind];
    [apply Hk | apply no_value_fault | apply no_value_starved].
Qed.

Lemma no_value_bind_l {A B : Type} (m : outcome A) (k : A -> outcome B) :
  no_value m -> no_value (bind m k).
Proof.
  intros Hm. destruct m as [a | |]; cbn [bind];
    [now elim (Hm a) | apply no_value_fault | apply no_value_starved].
Qed.

Ltac through_reads :=
  repeat (apply no_value_bind; intros ?; cbv beta zeta).

Ltac fault_at shell :=
  cbv zeta;
  repeat first [ rewrite (read_past _ shell) by lia; apply no_value_fault
               | apply no_value_bind; intros ?; cbv beta zeta ].

Lemma form_volume_loop_short (n_shells : Z) (thickness interface : list float) (len : nat) :
  n_shells <= INT_MAX -> (len < Z.to_nat n_shells)%nat ->
  (length thickness <= len)%nat \/ (length interface <= len)%nat ->
  forall (fuel : nat) (i : Z) (r : float),
    0 <= i -> (Z.to_nat i <= len)%nat ->
    no_value (form_volume_loop n_shells thickness interface fuel i r).
Proof.
  intros Hmax Hlen Hshort.
  induction fuel as [| fuel IH]; intros i r Hi Hle; cbn [form_volume_loop];
    destruct (Z.ltb_spec i n_shells) as [Hlt | Hge]; try lia;
    [apply no_value_starved |].
  destruct (Nat.eq_dec (Z.to_nat i) len) as [Heq | Hne].
  - destruct Hshort as [H | H]; fault_at i.
  - through_reads. rewrite int_succ_in_range by int_range. apply IH; lia.
Qed.

Section ShortArrays.
Context `{E : KernelEnv}.
Variables (q : float) (n_shells : Z) (sld_solvent : float)
          (sld thickness interface shape nu : list float) (n_steps : Z).
Variable len : nat.
Hypothesis n_shells_max : n_shells <= INT_MAX.
Hypothesis len_short : (len < Z.to_nat n_shells)%nat.
Hypothesis some_short :
  (length sld <= len)%nat \/ (length thickness <= len)%nat \/
  (length interface <= len)%nat \/ (length shape <= len)%nat \/ (length nu <= len)%nat.

Lemma shell_loop_short (gas : nat) :
  forall (fuel : nat) (shell : Z) (f r : float),
    0 <= shell -> (Z.to_nat shell <= len)%nat ->
    no_value (shell_loop q n_shells sld_solvent sld thickness interface shape nu n_steps
                         gas fuel shell f r).
Proof.
  induction fuel as [| fuel IH]; intros shell f r Hshell Hle;
    rewrite shell_loop_unfold;
    destruct (Z.ltb_spec shell n_shells) as [Hlt | Hge]; try lia;
    [apply no_value_starved |].
  destruct (Nat.eq_dec (Z.to_nat shell) len) as [Heq | Hne].
  - destruct some_short as [H | [H | [H | [H | H]]]]; fault_at shell.
  - through_reads.
    assert (Hsucc : int_succ shell = shell + 1) by (apply int_succ_in_range; int_range).
    destruct (_ =? 0.0)%float; [rewrite Hsucc; apply IH; lia |].
    apply no_value_bind. intros fr. rewrite Hsucc. apply IH; lia.
Qed.
End ShortArrays.

(** X10. Every one of the five arrays of [Iq], and both arrays of
    [form_volume], must hold at least [n_shells] entries: when one of them
    is shorter, the loop reads past its end before it finishes, and the
    call returns no value, whatever the fuel. *)
Theorem short_array_gives_no_value `{E : KernelEnv}
    (q : float) (n_shells : Z) (sld_solvent : float)
    (sld thickness interface shape nu : list float) (n_steps : Z) (fuel : nat) :
  n_shells <= INT_MAX ->
  ((length thickness < Z.to_nat n_shells)%nat \/ (length interface < Z.to_nat n_shells)%nat ->
   no_value (form_volume n_shells thickness interface fuel))
  /\ ((length sld < Z.to_nat n_shells)%nat \/ (length thickness < Z.to_nat n_shells)%nat \/
      (length interface < Z.to_nat n_shells)%nat \/ (length shape < Z.to_nat n_shells)%nat \/
      (length nu < Z.to_nat n_shells)%nat ->
      no_value (Iq q n_shells sld_solvent sld thickness interface shape nu n_steps fuel)).
Proof.
  intros Hmax. split.
  - intros Hshort. unfold form_volume. apply no_value_bind_l.
    destruct Hshort as [H | H].
    + apply form_volume_loop_short with (len := length thickness);
        try assumption; try lia.
    + apply form_volume_loop_short with (len := length interface);
        try assumption; try lia.
  - intros Hshort. unfold Iq. apply no_value_bind_l.
    unfold Iq_amplitude. apply no_value_bind_l.
    destruct Hshort as [H | [H | [H | [H | H]]]].
    + apply shell_loop_short with (len := length sld); try assumption; try lia.
    + apply shell_loop_short with (len := length thickness); try assumption; try lia.
    + apply shell_loop_short with (len := length interface); try assumption; try lia.
    + apply shell_loop_short with (len := length shape); try assumption; try lia.
    + apply shell_loop_short with (len := length nu); try assumption; try lia.
Qed.

Lemma short_array_gives_no_value_series :
  no_value (@Iq series_env 0.05 2 0.0 [1.0; 2.0]%float [10.0; 5.0]%float [5.0; 1.0]%float
                [0.0]%float [2.5; 2.5]%float 4 9).
Proof.
  refine (proj2 (@short_array_gives_no_value series_env 0.05%float 2 0.0%float
                   [1.0; 2.0]%float [10.0; 5.0]%float [5.0; 1.0]%float [0.0]%float
                   [2.5; 2.5]%float 4 9%nat _) _).
  - int_range.
  - right. right. right. left. cbn. lia.
Defined.

(* ================================================================== *)
(** * Doubles: doubling and halving *)

(** The product by 2 of a finite nonzero double: the exponent goes up by
    one (and may overflow), or, for a subnormal, the mantissa is doubled. *)
Lemma mul_two_sf (s : bool) (m : positive) (e : Z) :
  valid_binary (S754_finite s m e) = true ->
  SF64mul (S754_finite false 4503599627370496 (-51)) (S754_finite s m e) =
  if Zpos (digits2_pos m) =? 53
  then if e + 1 <=? emax - prec then S754_finite s m (e + 1) else S754_infinity s
  else S754_finite s (xO m) e.
Proof.
  intros Hvalid. apply canonical_of_valid in Hvalid. destruct Hvalid as [Hcanon Hbound].
  cbn [SF64mul SFmul xorb].
  change (4503599627370496 * m)%positive with (Pos.iter xO m 52).
  unfold binary_round_aux, shr_fexp. cbn [Zdigits2].
  rewrite digits2_pos_shift.
  set (d := Zpos (digits2_pos m)) in *.
  assert (Hd : 1 <= d) by (subst d; lia).
  unfold fexp, SpecFloat.emin, prec, emax in Hcanon.
  destruct (Z.eqb_spec d 53) as [Hfull | Hsub].
  - assert (Hshift : fexp prec emax (d + 52 + (-51 + e)) - (-51 + e) = 52).
    { unfold fexp, SpecFloat.emin, prec, emax. lia. }
    rewrite Hshift. cbn [shr shr_record_of_loc]. rewrite shr_trailing_zeros.
    cbn [shr_m loc_of_shr_record round_nearest_even shr_record_of_loc Zdigits2].
    fold d.
    assert (Hstay : fexp prec emax (d + (-51 + e + 52)) - (-51 + e + 52) = 0).
    { unfold fexp, SpecFloat.emin, prec, emax. lia. }
    rewrite Hstay. cbn [shr shr_m].
    replace (-51 + e + 52) with (e + 1) by lia. reflexivity.
  - assert (Hshift : fexp prec emax (d + 52 + (-51 + e)) - (-51 + e) = 51).
    { unfold fexp, SpecFloat.emin, prec, emax. lia. }
    rewrite Hshift. cbn [shr shr_record_of_loc].
    change (Pos.iter xO m 52) with (Pos.iter xO (xO m) 51).
    rewrite shr_trailing_zeros.
    cbn [shr_m loc_of_shr_record round_nearest_even shr_record_of_loc Zdigits2 digits2_pos].
    rewrite Pos2Z.inj_succ. fold d.
    assert (Hstay : fexp prec emax (Z.succ d + (-51 + e + 51)) - (-51 + e + 51) = 0).
    { unfold fexp, SpecFloat.emin, prec, emax. lia. }
    rewrite Hstay. cbn [shr shr_m].
    replace (-51 + e + 51) with e by lia.
    apply Z.leb_le in Hbound. now rewrite Hbound.
Qed.

Lemma div_eucl_exact (a b c : Z) : 0 < b -> a = c * b -> Z.div_eucl a b = (c, 0).
Proof.
  intros Hb ->. pose proof (Z_div_mod (c * b) b ltac:(lia)) as Hspec.
  destruct (Z.div_eucl (c * b) b) as [qu re]. destruct Hspec as [Heq Hre].
  assert (Hqu : qu = c) by nia. subst qu. f_equal. lia.
Qed.

Lemma new_location_exact (m : positive) : new_location (Zpos m) 0 = loc_Exact.
Proof.
  unfold new_location, new_location_even, new_location_odd.
  destruct (Z.even (Zpos m)); reflexivity.
Qed.

(** A finite nonzero double divided by its double is one half. *)
Lemma div_by_double (x : float) :
  is_finite x = true -> PrimFloat.is_zero x = false -> is_finite (2.0 * x) = true ->
  (x / (2.0 * x))%float = 0.5%float.
Proof.
  intros Hfin Hnz Hfin2. apply Prim2SF_inj. rewrite div_spec, mul_spec.
  rewrite is_finite_sf, mul_spec in Hfin2.
  rewrite is_finite_sf in Hfin. rewrite is_zero_sf in Hnz.
  pose proof (Prim2SF_valid x) as Hvalid.
  change (Prim2SF 2.0) with (S754_finite false 4503599627370496 (-51)) in *.
  destruct (Prim2SF x) as [s | s | | s m e]; try discriminate.
  rewrite (mul_two_sf s m e Hvalid) in *.
  destruct (Zpos (digits2_pos m) =? 53).
  - destruct (e + 1 <=? emax - prec); [| discriminate Hfin2].
    cbn [SF64div SFdiv]. unfold SFdiv_core_binary.
    replace (Zdigits2 (Zpos m) + e - (Zdigits2 (Zpos m) + (e + 1))) with (-1) by lia.
    replace (e - (e + 1)) with (-1) by lia.
    change (Z.min (fexp prec emax (-1)) (-1)) with (-54).
    change (-1 - -54) with 53.
    cbv iota beta.
    rewrite Z.shiftl_mul_pow2 by lia.
    rewrite (div_eucl_exact _ _ (2 ^ 53)) by lia.
    rewrite new_location_exact. destruct s; reflexivity.
  - cbn [SF64div SFdiv]. unfold SFdiv_core_binary.
    cbn [Zdigits2 digits2_pos]. rewrite Pos2Z.inj_succ.
    replace (Zpos (digits2_pos m) + e - (Z.succ (Zpos (digits2_pos m)) + e)) with (-1) by lia.
    rewrite Z.sub_diag.
    change (Z.min (fexp prec emax (-1)) 0) with (-54).
    change (0 - -54) with 54.
    cbv iota beta.
    rewrite Z.shiftl_mul_pow2 by lia.
    rewrite (div_eucl_exact _ _ (2 ^ 53)) by lia.
    rewrite new_location_exact. destruct s; reflexivity.
Qed.

(** Negation goes through a product and a quotient exactly. *)
Lemma mul_opp_r (x y : float) : (x * - y)%float = (- (x * y))%float.
Proof.
  apply Prim2SF_inj. rewrite opp_spec, !mul_spec, opp_spec.
  destruct (Prim2SF x) as [sx | sx | | sx mx ex], (Prim2SF y) as [sy | sy | | sy my ey];
    cbn [SFopp SF64mul SFmul]; try (now destruct sx, sy); try reflexivity.
  rewrite <- binary_round_aux_opp. now destruct sx, sy.
Qed.

Lemma div_opp_l (x y : float) : (- x / y)%float = (- (x / y))%float.
Proof.
  apply Prim2SF_inj. rewrite opp_spec, !div_spec, opp_spec.
  destruct (Prim2SF x) as [sx | sx | | sx mx ex], (Prim2SF y) as [sy | sy | | sy my ey];
    cbn [SFopp SF64div SFdiv]; try (now destruct sx, sy); try reflexivity.
  destruct (SFdiv_core_binary prec emax (Z.pos mx) ex (Z.pos my) ey) as [[mz ez] lz].
  rewrite <- binary_round_aux_opp. now destruct sx, sy.
Qed.

Lemma opp_involutive (x : float) : (- - x)%float = x.
Proof.
  apply Prim2SF_inj. rewrite !opp_spec.
  destruct (Prim2SF x) as [s | s | | s m e]; cbn [SFopp]; now rewrite ?negb_involutive.
Qed.

(* ================================================================== *)
(** * The shapes of [blend] *)

(** X11. The end points of the error-function shape (code 0): with an
    error function that is odd at [t = nu/sqrt 2] and whose value there is
    finite and not zero (and does not overflow when doubled),
    [blend(0, nu, 0)] is exactly 0 and [blend(0, nu, 1)] is exactly 1: the
    arguments of the error function are [-t] and [t] exactly, and the
    quotients by [2 erf(t)] are exactly -1/2 and 1/2. *)
Theorem blend_erf_boundary_values `{E : KernelEnv} (nu : float) :
  sas_erf (- (nu * M_SQRT1_2)) = (- sas_erf (nu * M_SQRT1_2))%float ->
  is_finite (sas_erf (nu * M_SQRT1_2)) = true ->
  PrimFloat.is_zero (sas_erf (nu * M_SQRT1_2)) = false ->
  is_finite (2.0 * sas_erf (nu * M_SQRT1_2)) = true ->
  blend 0 nu 0.0 = 0.0%float /\ blend 0 nu 1.0 = 1.0%float.
Proof.
  intros Hodd Hfin Hnz Hfin2. unfold blend. cbn [Z.eqb]. cbv zeta.
  change (2.0 * 0.0 - 1.0)%float with (- (1.0))%float.
  change (2.0 * 1.0 - 1.0)%float with 1.0%float.
  rewrite mul_opp_r, !mul_one_r, Hodd, div_opp_l, div_by_double by assumption.
  split; reflexivity.
Qed.

Lemma blend_erf_boundary_values_series :
  @blend series_env 0 2.5 0.0 = 0.0%float /\ @blend series_env 0 2.5 1.0 = 1.0%float.
Proof.
  refine (@blend_erf_boundary_values series_env 2.5%float _ _ _ _); reflexivity.
Defined.

(** X12. The two exponential shapes are each other's mirror image in the
    sharpness: [blend(3, -nu, z)] and [blend(4, nu, z)] are the same double,
    for every [nu], [z] and math library. *)
Theorem blend_exponential_shapes_mirrored `{E : KernelEnv} (nu z : float) :
  blend 3 (- nu) z = blend 4 nu z.
Proof. unfold blend. cbn [Z.eqb Pos.eqb]. now rewrite opp_involutive. Qed.

(* ================================================================== *)
(** * Doubles: the order *)

Lemma SFcompare_antisym (x y : spec_float) :
  SFcompare y x = option_map CompOpp (SFcompare x y).
Proof.
  destruct x as [sx | sx | | sx mx ex], y as [sy | sy | | sy my ey];
    cbn [SFcompare option_map];
    try (destruct sx; reflexivity); try (destruct sy; reflexivity);
    try (destruct sx, sy; reflexivity); try reflexivity.
  change (Pos.compare_cont Eq my mx) with (Pos.compare my mx).
  change (Pos.compare_cont Eq mx my) with (Pos.compare mx my).
  rewrite (Z.compare_antisym ex ey), (Pos.compare_antisym mx my).
  destruct sx, sy; try reflexivity;
    destruct (ex ?= ey); cbn [CompOpp]; try reflexivity;
    destruct (mx ?= my)%positive; reflexivity.
Qed.

Lemma SFcompare_none (x y : spec_float) :
  SFcompare x y = None -> x = S754_nan \/ y = S754_nan.
Proof.
  destruct x as [sx | sx | | sx mx ex], y as [sy | sy | | sy my ey];
    cbn [SFcompare]; intros H; try discriminate H; auto.
Qed.

(** Of two doubles that are not not-a-number, the one that is not below the
    other is at least the other. *)
Lemma not_below_is_above (x y : float) :
  is_nan x = false -> is_nan y = false -> (x <? y)%float = false ->
  (y <=? x)%float = true.
Proof.
  intros Hx Hy. rewrite ltb_spec, leb_spec. unfold SFltb, SFleb.
  rewrite (SFcompare_antisym (Prim2SF x) (Prim2SF y)).
  destruct (SFcompare (Prim2SF x) (Prim2SF y)) as [[| |] |] eqn:Hc;
    cbn [option_map CompOpp]; try reflexivity; try discriminate.
  intros _. apply SFcompare_none in Hc.
  destruct Hc as [Hc | Hc]; apply is_nan_spec in Hc; congruence.
Qed.

(** X13. The sharpness [Iq] hands to [blend], [fmax(fabs(nu[i]), 1e-14)],
    is never below the floor 1e-14 and never not-a-number, whatever
    [nu[i]] is (a zero, a negative number, an infinity, not-a-number): the
    lower bound on the sharpness that the boundary values of the shapes 1 to
    4 need always holds inside [Iq]. *)
Theorem clamped_sharpness_above_floor (x : float) :
  (1.0e-14 <=? fmax (fabs x) 1.0e-14)%float = true
  /\ is_nan (fmax (fabs x) 1.0e-14) = false.
Proof.
  unfold fmax, fabs.
  destruct (is_nan (abs x)) eqn:Hnan; [split; reflexivity |].
  change (is_nan 1.0e-14) with false. cbv iota.
  destruct (abs x <? 1.0e-14)%float eqn:Hlt; [split; reflexivity |].
  split; [| exact Hnan].
  apply not_below_is_above; [exact Hnan | reflexivity | exact Hlt].
Qed.

(* ================================================================== *)
(** * The conversions between [int] and [double] *)

Lemma iter_xO_pow2 (p k : positive) : Zpos (Pos.iter xO p k) = Zpos p * 2 ^ Zpos k.
Proof.
  apply (Pos.iter_ind _ xO p (fun k q => Zpos q = Zpos p * 2 ^ Zpos k)).
  - change (2 ^ 1) with 2. lia.
  - intros k' q IH. rewrite Pos2Z.inj_succ, Z.pow_succ_r, Pos2Z.inj_xO, IH by lia. ring.
Qed.

Lemma digits2_pos_int (p : positive) : Zpos p <= 2147483648 -> Zpos (digits2_pos p) <= 32.
Proof.
  intros Hp. pose proof (digits2_pos_lower p) as Hlow.
  destruct (Z.le_gt_cases (Zpos (digits2_pos p)) 32) as [Hle | Hgt]; [assumption |].
  assert (Hpow : 2 ^ 32 <= 2 ^ (Zpos (digits2_pos p) - 1))
    by (apply Z.pow_le_mono_r; lia).
  change (2 ^ 32) with 4294967296 in Hpow. lia.
Qed.

(** The integer part of [(double)p] is [p], for [p] up to [2^31]. *)
Lemma trunc_double_of_pos (p : positive) :
  Zpos p <= 2147483648 ->
  exists m e, Prim2SF (of_uint63 (Uint63.of_Z (Zpos p))) = S754_finite false m e
              /\ Z.shiftl (Zpos m) e = Zpos p.
Proof.
  intros Hp. rewrite of_uint63_spec, Uint63.of_Z_spec.
  rewrite Z.mod_small by (change Uint63.wB with 9223372036854775808; lia).
  cbn [binary_normalize].
  pose proof (digits2_pos_int p Hp) as Hd.
  rewrite binary_round_small by lia.
  eexists. eexists. split; [reflexivity |].
  set (d := Zpos (digits2_pos p)) in *.
  assert (Hd1 : 1 <= d) by (subst d; lia).
  rewrite Z.shiftl_div_pow2 by lia.
  rewrite iter_xO_pow2, Z2Pos.id by lia.
  replace (- (d - 53)) with (53 - d) by lia.
  apply Z.div_mul. apply Z.pow_nonzero; lia.
Qed.

Lemma trunc_double_of_int (i : Z) : in_int i -> trunc_double (double_of_int i) = Some i.
Proof.
  unfold in_int, INT_MIN, INT_MAX. intros Hi.
  unfold double_of_int, trunc_double. destruct i as [| p | p].
  - reflexivity.
  - change (Zpos p <? 0) with false. cbv iota.
    destruct (trunc_double_of_pos p) as (m & e & Hm & Hmag); [lia |].
    rewrite Hm. cbv zeta. now rewrite Hmag.
  - change (Zneg p <? 0) with true. cbv iota. change (- Zneg p) with (Zpos p).
    destruct (trunc_double_of_pos p) as (m & e & Hm & Hmag); [lia |].
    rewrite opp_spec, Hm. cbn [SFopp negb]. cbv zeta. now rewrite Hmag.
Qed.

(** X14. The casts of the source are inverse to each other on the [int]s:
    [(int)(double)i == i] for every [int] [i], on every platform, so a
    shape given as the double of a code 0..4 selects that code. *)
Theorem double_to_int_of_int `{E : KernelEnv} (i : Z) :
  in_int i -> double_to_int (double_of_int i) = i.
Proof.
  intros Hi. unfold double_to_int. rewrite trunc_double_of_int by assumption.
  unfold in_int in Hi. destruct Hi as [Hlo Hhi].
  apply Z.leb_le in Hlo, Hhi. now rewrite Hlo, Hhi.
Qed.

Lemma double_to_int_of_int_series :
  double_to_int (E := series_env) (double_of_int (-2147483648)) = -2147483648.
Proof.
  apply (@double_to_int_of_int series_env (-2147483648)). int_range.
Defined.

(** The last sub-step of an interface. *)
Lemma int_over_itself (n : Z) :
  in_int n -> n <> 0 -> (double_of_int n / double_of_int n)%float = 1.0%float.
Proof.
  intros Hn Hnz. destruct (double_of_int_nonzero n Hn Hnz) as (m & e & Hm).
  apply div_self; [rewrite is_finite_sf | rewrite is_zero_sf]; now rewrite Hm.
Qed.

(** X15. The last sub-step of an interface ([step = n_steps], for
    [1 <= n_steps <= INT_MAX]) evaluates [blend] at [z = 1] exactly, so the
    density at the outer end of the interface is
    [blend(shape, nu, 1) * delta + sld_l]. *)
Theorem last_sub_step_at_one `{E : KernelEnv}
    (q : float) (n_steps : Z) (sld_l dr delta nu_shell : float) (shape_shell : Z)
    (st : float * float * float) :
  1 <= n_steps <= INT_MAX ->
  (double_of_int n_steps / double_of_int n_steps)%float = 1.0%float
  /\ fst (fst (sub_step q n_steps sld_l dr delta nu_shell shape_shell st n_steps))
     = (blend shape_shell nu_shell 1.0 * delta + sld_l)%float.
Proof.
  intros Hn.
  assert (Hone : (double_of_int n_steps / double_of_int n_steps)%float = 1.0%float).
  { apply int_over_itself; [int_range | lia]. }
  split; [exact Hone |]. unfold sub_step. cbn [fst snd]. now rewrite Hone.
Qed.

Lemma last_sub_step_at_one_series :
  (double_of_int 7 / double_of_int 7)%float = 1.0%float
  /\ fst (fst (@sub_step series_env 0.05 7 1.0 0.5 2.0 2.5 1 (1.0, 0.0, 10.0)%float 7))
     = (@blend series_env 1 2.5 1.0 * 2.0 + 1.0)%float.
Proof.
  apply (@last_sub_step_at_one series_env 0.05%float 7 1.0%float 0.5%float 2.0%float
           2.5%float 1 (1.0, 0.0, 10.0)%float).
  int_range.
Defined.

(** Shape values strictly between -1 and 1. *)
Lemma digits2_pos_upper (p : positive) : Zpos p < 2 ^ Zpos (digits2_pos p).
Proof.
  induction p as [p IH | p IH |]; simpl digits2_pos.
  - rewrite Pos2Z.inj_succ, Z.pow_succ_r by lia. lia.
  - rewrite Pos2Z.inj_succ, Z.pow_succ_r by lia. lia.
  - simpl. lia.
Qed.

Lemma shiftl_small (m : positive) (e : Z) :
  e < 0 -> Zpos m < 2 ^ (- e) -> Z.shiftl (Zpos m) e = 0.
Proof.
  intros He Hm. rewrite Z.shiftl_div_pow2 by lia. apply Z.div_small. lia.
Qed.

Lemma mantissa_below_pow (m : positive) (e : Z) :
  Zpos (digits2_pos m) <= 53 -> e < -52 -> Zpos m < 2 ^ (- e).
Proof.
  intros Hd He. pose proof (digits2_pos_upper m) as Hup.
  assert (Hpow : 2 ^ Zpos (digits2_pos m) <= 2 ^ (- e))
    by (apply Z.pow_le_mono_r; lia).
  lia.
Qed.

Lemma trunc_double_small (x : float) :
  (-1.0 <? x)%float = true -> (x <? 1.0)%float = true -> trunc_double x = Some 0.
Proof.
  rewrite !ltb_spec. unfold trunc_double.
  change (Prim2SF 1.0) with (S754_finite false 4503599627370496 (-52)).
  change (Prim2SF (-1.0)) with (S754_finite true 4503599627370496 (-52)).
  pose proof (Prim2SF_valid x) as Hvalid.
  destruct (Prim2SF x) as [s | s | | s m e]; unfold SFltb, SFcompare;
    cbv beta iota; intros Hlo Hhi.
  - reflexivity.
  - destruct s; discriminate.
  - discriminate.
  - apply canonical_of_valid in Hvalid. destruct Hvalid as [Hcanon _].
    assert (Hd : Zpos (digits2_pos m) <= 53).
    { unfold fexp, SpecFloat.emin, prec, emax in Hcanon. clear - Hcanon. lia. }
    assert (Hsmall : e < 0 /\ Zpos m < 2 ^ (- e)).
    { destruct s.
      - destruct (Z.compare_spec (-52) e) as [Heq | Hlt | Hgt]; try discriminate Hlo.
        + destruct (Pos.compare_cont Eq 4503599627370496 m) eqn:Hm;
            try discriminate Hlo.
          rewrite <- Heq. change (2 ^ (- -52)) with 4503599627370496.
          split; [reflexivity |].
          apply Pos.compare_gt_iff in Hm. exact Hm.
        + split; [clear - Hgt; lia | apply mantissa_below_pow; clear - Hd Hgt; lia].
      - destruct (Z.compare_spec e (-52)) as [Heq | Hlt | Hgt]; try discriminate Hhi.
        + destruct (Pos.compare_cont Eq m 4503599627370496) eqn:Hm;
            try discriminate Hhi.
          rewrite Heq. change (2 ^ (- -52)) with 4503599627370496.
          split; [reflexivity |].
          apply Pos.compare_lt_iff in Hm. exact Hm.
        + split; [clear - Hlt; lia | apply mantissa_below_pow; clear - Hd Hlt; lia]. }
    cbv zeta. rewrite (shiftl_small m e) by apply Hsmall. destruct s; reflexivity.
Qed.

(** X16. [(int)] truncates towards zero, so every shape value strictly
    between -1 and 1 (a negative fraction as well) has the code 0 and
    selects the error-function shape, on every platform. *)
Theorem fractional_shape_selects_erf `{E : KernelEnv} (x : float) :
  (-1.0 <? x)%float = true -> (x <? 1.0)%float = true ->
  double_to_int x = 0
  /\ forall nu z, blend (double_to_int x) nu z = blend 0 nu z.
Proof.
  intros Hlo Hhi.
  assert (Hcode : double_to_int x = 0).
  { unfold double_to_int. now rewrite trunc_double_small. }
  split; [exact Hcode |]. intros nu z. now rewrite Hcode.
Qed.

Lemma fractional_shape_selects_erf_series :
  double_to_int (E := series_env) (-0.75) = 0.
Proof.
  refine (proj1 (@fractional_shape_selects_erf series_env (-0.75)%float _ _));
    reflexivity.
Defined.

(* ================================================================== *)
(** * The sign of [q] *)

Lemma mul_opp_l (x y : float) : (- x * y)%float = (- (x * y))%float.
Proof.
  apply Prim2SF_inj. rewrite opp_spec, !mul_spec, opp_spec.
  destruct (Prim2SF x) as [sx | sx | | sx mx ex], (Prim2SF y) as [sy | sy | | sy my ey];
    cbn [SFopp SF64mul SFmul]; try (now destruct sx, sy); try reflexivity.
  rewrite <- binary_round_aux_opp. now destruct sx, sy.
Qed.

Lemma mul_opp_opp (x y : float) : (- x * - y)%float = (x * y)%float.
Proof. now rewrite mul_opp_l, mul_opp_r, opp_involutive. Qed.

Section EvenInQ.
Context `{E : KernelEnv}.
Hypothesis bessel_even : forall x, sph_j1c (- x) = sph_j1c x.
Hypothesis sin_odd : forall x, sin (- x) = (- sin x)%float.
Hypothesis cos_even : forall x, cos (- x) = cos x.

Lemma uniform_term_even (q r sld_l : float) :
  (M_4PI_3 * cube r * sld_l * sph_j1c (- q * r))%float
  = (M_4PI_3 * cube r * sld_l * sph_j1c (q * r))%float.
Proof. now rewrite mul_opp_l, bessel_even. Qed.

Lemma f_linear_even (q r contrast slope : float) :
  f_linear (- q) r contrast slope = f_linear q r contrast slope.
Proof.
  unfold f_linear. cbv zeta.
  rewrite (mul_opp_l q r), !mul_opp_opp, bessel_even, sin_odd, cos_even.
  rewrite (mul_opp_r 2.0 (q * r)), mul_opp_opp. reflexivity.
Qed.

Variables (q : float) (n_steps : Z).

Lemma step_loop_even (sld_l dr delta nu_shell : float) (shape_shell : Z) :
  forall (fuel : nat) (step : Z) (sld_in f r : float),
    step_loop (- q) n_steps fuel sld_l dr delta nu_shell shape_shell step sld_in f r
    = step_loop q n_steps fuel sld_l dr delta nu_shell shape_shell step sld_in f r.
Proof.
  induction fuel as [| fuel IH]; intros step sld_in f r; cbn [step_loop];
    destruct (step <=? n_steps); try reflexivity.
  cbv zeta. rewrite !f_linear_even. apply IH.
Qed.

Variables (n_shells : Z) (sld_solvent : float)
          (sld thickness interface shape nu : list float).

Lemma shell_loop_even (gas : nat) :
  forall (fuel : nat) (shell : Z) (f r : float),
    shell_loop (- q) n_shells sld_solvent sld thickness interface shape nu n_steps
               gas fuel shell f r
    = shell_loop q n_shells sld_solvent sld thickness interface shape nu n_steps
                 gas fuel shell f r.
Proof.
  induction fuel as [| fuel IH]; intros shell f r;
    rewrite !shell_loop_unfold; destruct (shell <? n_shells); try reflexivity.
  destruct (read sld shell) as [sld_l | |]; cbn [bind]; try reflexivity.
  destruct (read thickness shell) as [t | |]; cbn [bind]; try reflexivity.
  destruct (read interface shell) as [w | |]; cbn [bind]; try reflexivity.
  destruct (if shell =? int_sub n_shells 1 then Ret sld_solvent
            else read sld (int_add shell 1)) as [sld_next | |];
    cbn [bind]; try reflexivity.
  destruct (read nu shell) as [nu_i | |]; cbn [bind]; try reflexivity.
  destruct (read shape shell) as [shape_i | |]; cbn [bind]; try reflexivity.
  cbv zeta. rewrite !uniform_term_even, step_loop_even.
  destruct (_ =? 0.0)%float; [apply IH |].
  destruct (step_loop _ _ _ _ _ _ _ _ _ _ _ _) as [fr | |]; cbn [bind];
    [apply IH | reflexivity | reflexivity].
Qed.
End EvenInQ.

(** X17. The intensity is even in [q]: with a Bessel term and a cosine
    that are even and a sine that is odd (as doubles), [Iq] comes to the
    same outcome at [-q] and at [q], for every input and every fuel; [q]
    enters through [q * r] only, and the sign of [q r] cancels exactly in
    every term. *)
Theorem Iq_even_in_q `{E : KernelEnv}
    (q : float) (n_shells : Z) (sld_solvent : float)
    (sld thickness interface shape nu : list float) (n_steps : Z) (fuel : nat) :
  (forall x, sph_j1c (- x) = sph_j1c x) ->
  (forall x, sin (- x) = (- sin x)%float) ->
  (forall x, cos (- x) = cos x) ->
  Iq (- q) n_shells sld_solvent sld thickness interface shape nu n_steps fuel
  = Iq q n_shells sld_solvent sld thickness interface shape nu n_steps fuel.
Proof.
  intros Hbessel Hsin Hcos. unfold Iq, Iq_amplitude.
  rewrite (shell_loop_even Hbessel Hsin Hcos).
  destruct (shell_loop q _ _ _ _ _ _ _ _ _ _ _ _ _) as [fr | |]; cbn [bind];
    try reflexivity.
  cbv zeta. now rewrite (uniform_term_even Hbessel).
Qed.

Lemma Iq_even_in_q_series :
  @Iq series_env (-0.05) 2 0.0 [1.0; 3.0]%float [10.0; 4.0]%float [5.0; 2.0]%float
      [1.0; 4.0]%float [2.0; 1.0]%float 3 3
  = @Iq series_env 0.05 2 0.0 [1.0; 3.0]%float [10.0; 4.0]%float [5.0; 2.0]%float
      [1.0; 4.0]%float [2.0; 1.0]%float 3 3.
Proof.
  apply (@Iq_even_in_q series_env 0.05%float 2 0.0%float [1.0; 3.0]%float
           [10.0; 4.0]%float [5.0; 2.0]%float [1.0; 4.0]%float [2.0; 1.0]%float 3 3%nat).
  - intros x. cbn [sph_j1c series_env]. cbv zeta. now rewrite mul_opp_opp.
  - intros x. cbn [sin series_env]. cbv zeta. now rewrite mul_opp_opp, mul_opp_l.
  - intros x. cbn [cos series_env]. cbv zeta. now rewrite mul_opp_opp.
Defined.
